(** * The tic-tac-toe derived-state pipeline

    A shallow embedding of the game logic of the tic-tac-toe project:
    [deriveActivePlayer], [deriveGameBoard], [deriveWinner],
    [handleSelectSquare] and the draw flag [hasDraw], together with the
    properties the project's specification states about them (C1 to C10),
    and of what surrounds it: the board, log and player components of the
    game, the timer challenge, the welcome form and the running total of
    the results table, with further properties read off the code (X1 and
    following).

    JavaScript values that reach these functions are modelled as they are at
    run time: a board cell is [null], [undefined] (a hole of an array that
    was extended) or a string; an array is a list, a write past its end
    extends it; reading a property of [undefined] raises a [TypeError];
    arrays held in React state live in a store of references. *)

From stdpp Require Import gmap strings list fin_maps pretty.
From Stdlib Require Import Permutation.

Local Open Scope string_scope.
Local Open Scope list_scope.
Local Open Scope nat_scope.
Local Open Scope stdpp_scope.

(** ** JavaScript values and arrays *)

Inductive value : Type :=
  | Null
  | Undefined
  | Str (s : string).

#[global] Instance value_eq_dec : EqDecision value.
Proof. solve_decision. Defined.

(** Truthiness of a cell value: [null], [undefined] and the empty string
    are falsy. *)
Definition truthy (v : value) : bool :=
  match v with
  | Str s => negb (String.eqb s "")
  | _ => false
  end.

(** [a === b] on cell values. *)
Definition strict_eq (a b : value) : bool := bool_decide (a = b).

(** The outcome of running a piece of code that may throw. *)
Inductive result (A : Type) : Type :=
  | Ok (a : A)
  | TypeError.
Arguments Ok {A} a.
Arguments TypeError {A}.

#[global] Instance result_bind : MBind result := λ A B k m,
  match m with
  | Ok a => k a
  | TypeError => TypeError
  end.

(** A [for ... of] loop whose body may throw, threading the loop state. *)
Fixpoint for_of {A S} (body : S → A → result S) (s : S) (l : list A) : result S :=
  match l with
  | [] => Ok s
  | x :: l' => s' ← body s x; for_of body s' l'
  end.

(** [arr[i]] on an array of cells: a missing index reads [undefined]. *)
Definition array_get (arr : list value) (i : nat) : value :=
  default Undefined (arr !! i).

(** [arr[i] = v]: inside the array the slot is overwritten; past its end the
    array grows, the slots in between being holes that read [undefined]. *)
Definition array_set (arr : list value) (i : nat) (v : value) : list value :=
  if decide (i < length arr) then <[i:=v]> arr
  else arr ++ replicate (i - length arr) Undefined ++ [v].

(** ** Data model *)

Record Square : Type := { row : nat; col : nat }.

Record Turn : Type := { square : Square; player : string }.

#[global] Instance Square_eq_dec : EqDecision Square.
Proof. solve_decision. Defined.

#[global] Instance Turn_eq_dec : EqDecision Turn.
Proof. solve_decision. Defined.

Abbreviation board := (list (list value)) (only parsing).

(** The registry of display names, [{ X: 'Player 1', O: 'Player 2' }]. *)
Definition PLAYERS : gmap string string :=
  <["X" := "Player 1"]> (<["O" := "Player 2"]> ∅).

(** ** Active player *)

Definition deriveActivePlayer (gameTurns : list Turn) : string :=
  match gameTurns with
  | t :: _ => if String.eqb (player t) "X" then "O" else "X"
  | [] => "X"
  end.

(** ** Board *)

Definition INITIAL_GAME_BOARD : board :=
  [ [Null; Null; Null];
    [Null; Null; Null];
    [Null; Null; Null] ].

(** [gameBoard[row][col] = player]: throws when [gameBoard[row]] is
    [undefined]. *)
Definition place (gameBoard : board) (turn : Turn) : result board :=
  match gameBoard !! row (square turn) with
  | None => TypeError
  | Some r =>
      Ok (<[row (square turn) := array_set r (col (square turn)) (Str (player turn))]> gameBoard)
  end.

(** The loop runs over [gameTurns] from index 0, that is from the most recent
    turn to the oldest one. *)
Definition deriveGameBoard (gameTurns : list Turn) : result board :=
  for_of place (map (λ array, array) INITIAL_GAME_BOARD) gameTurns.

(** [gameBoard[r][c]] as an expression. *)
Definition read (gameBoard : board) (r c : nat) : result value :=
  match gameBoard !! r with
  | None => TypeError
  | Some line => Ok (array_get line c)
  end.

(** ** Winner *)

Module Combo.
(** A coordinate of the winning-line table, [{ row, column }]. *)
Record cell : Type := { row : nat; column : nat }.

#[global] Instance cell_eq_dec : EqDecision cell.
Proof. solve_decision. Defined.
End Combo.

Definition combination : Type := (Combo.cell * Combo.cell * Combo.cell)%type.

Definition WINNING_COMBINATIONS : list combination :=
  [ (* rows *)
    (Combo.Build_cell 0 0, Combo.Build_cell 0 1, Combo.Build_cell 0 2);
    (Combo.Build_cell 1 0, Combo.Build_cell 1 1, Combo.Build_cell 1 2);
    (Combo.Build_cell 2 0, Combo.Build_cell 2 1, Combo.Build_cell 2 2);
    (* columns *)
    (Combo.Build_cell 0 0, Combo.Build_cell 1 0, Combo.Build_cell 2 0);
    (Combo.Build_cell 0 1, Combo.Build_cell 1 1, Combo.Build_cell 2 1);
    (Combo.Build_cell 0 2, Combo.Build_cell 1 2, Combo.Build_cell 2 2);
    (* diagonals *)
    (Combo.Build_cell 0 0, Combo.Build_cell 1 1, Combo.Build_cell 2 2);
    (Combo.Build_cell 0 2, Combo.Build_cell 1 1, Combo.Build_cell 2 0) ].

(** The property key a value is converted to in [players[v]]. *)
Definition property_key (v : value) : string :=
  match v with
  | Null => "null"
  | Undefined => "undefined"
  | Str s => s
  end.

(** The test of the [if] in the loop of [deriveWinner]. *)
Definition all_three_match (firstSquareSymbol secondSquareSymbol thirdSquareSymbol : value) : bool :=
  truthy firstSquareSymbol
  && strict_eq firstSquareSymbol secondSquareSymbol
  && strict_eq firstSquareSymbol thirdSquareSymbol.

(** One iteration of the loop of [deriveWinner]; [winner] is [None] while it
    is [undefined]. [players[key]] is the entry the object itself holds for
    [key]: what [Object.prototype] would add for keys such as "constructor"
    is left out, which is exact for the symbols "X" and "O". *)
Definition check_combination (gameBoard : board) (players : gmap string string)
    (winner : option string) (c : combination) : result (option string) :=
  firstSquareSymbol ← read gameBoard (Combo.row c.1.1) (Combo.column c.1.1);
  secondSquareSymbol ← read gameBoard (Combo.row c.1.2) (Combo.column c.1.2);
  thirdSquareSymbol ← read gameBoard (Combo.row c.2) (Combo.column c.2);
  if all_three_match firstSquareSymbol secondSquareSymbol thirdSquareSymbol
  then Ok (players !! property_key firstSquareSymbol)
  else Ok winner.

Definition deriveWinner (gameBoard : board) (players : gmap string string)
    : result (option string) :=
  for_of (check_combination gameBoard players) None WINNING_COMBINATIONS.

(** ** Draw *)

(** Truthiness of [winner], as in the component's [(winner || hasDraw)] and
    [!winner]: [undefined] and the empty name are falsy. *)
Definition truthy_name (winner : option string) : bool :=
  match winner with
  | Some name => negb (String.eqb name "")
  | None => false
  end.

(** Whether a line of the table matches: its three cells are fetched, the
    first is non-empty and all three are equal; this is the test of the [if]
    of [deriveWinner]. *)
Definition line_matches (gameBoard : board) (c : combination) : bool :=
  match read gameBoard (Combo.row c.1.1) (Combo.column c.1.1),
        read gameBoard (Combo.row c.1.2) (Combo.column c.1.2),
        read gameBoard (Combo.row c.2) (Combo.column c.2) with
  | Ok firstSquareSymbol, Ok secondSquareSymbol, Ok thirdSquareSymbol =>
      all_three_match firstSquareSymbol secondSquareSymbol thirdSquareSymbol
  | _, _, _ => false
  end.

(** Modelled from the spec: the draw status. The code that computes
    [hasDraw] is not among the sources: the component only uses the flag,
    and its render-flow diagram labels it [hasDraw = 9 turns & no winner?].
    The specification of the outcome evaluator says: "If no line matches,
    separately determine draw status: draw iff all 9 cells are non-empty
    and no line matched." *)
Definition hasDraw (gameBoard : board) : bool :=
  forallb (forallb (λ cell, negb (bool_decide (cell = Null)))) gameBoard
  && forallb (λ c, negb (line_matches gameBoard c)) WINNING_COMBINATIONS.

(** ** The component state and its handlers *)

Module App.

(** The state of the component: the arrays allocated so far, the reference
    held in the [gameTurns] state variable and the [players] object. *)
Record state : Type := {
  arrays : gmap positive (list Turn);
  gameTurns : positive;
  players : gmap string string
}.

(** [useState([])] and [useState({ X: 'Player 1', O: 'Player 2' })]. *)
Definition initial : state :=
  {| arrays := {[ 1%positive := [] ]}; gameTurns := 1%positive; players := PLAYERS |}.

(** The contents of the array a reference points to. *)
Definition deref (st : state) (ref : positive) : list Turn :=
  arrays st !!! ref.

(** The log as the component sees it. *)
Definition turns (st : state) : list Turn := deref st (gameTurns st).

(** [setGameTurns((prevTurns) => [{ square, player }, ...prevTurns])]: the
    array literal allocates a new array, into which the elements of
    [prevTurns] are copied after the new turn; the state variable then
    holds the new reference. *)
Definition handleSelectSquare (rowIndex colIndex : nat) (st : state) : state :=
  let prevTurns := deref st (gameTurns st) in
  let currentPlayer := deriveActivePlayer prevTurns in
  let updatedTurns :=
    {| square := {| row := rowIndex; col := colIndex |}; player := currentPlayer |}
    :: prevTurns in
  let ref := fresh (dom (arrays st)) in
  {| arrays := <[ref := updatedTurns]> (arrays st);
     gameTurns := ref;
     players := players st |}.

(** Modelled from the spec: the rename of a player in the registry. The
    code of [handlePlayerNameChange] is not among the sources, which pass it
    to the player components as [onChangeName] and give it in the data-flow
    diagram as [setPlayers({...prev, X: 'NewName'})]. The specification has
    the registry "mutated only via an explicit rename operation". *)
Definition handlePlayerNameChange (symbol newName : string) (st : state) : state :=
  {| arrays := arrays st;
     gameTurns := gameTurns st;
     players := <[symbol := newName]> (players st) |}.

(** The derived values computed on each render. *)
Definition activePlayer (st : state) : string := deriveActivePlayer (turns st).

Definition gameBoard (st : state) : result board := deriveGameBoard (turns st).

Definition winner (st : state) : result (option string) :=
  b ← gameBoard st; deriveWinner b (players st).

Definition draw (st : state) : result bool :=
  b ← gameBoard st; _ ← deriveWinner b (players st); Ok (hasDraw b).

(** The states the component goes through: a click on a square or the
    saving of a name. *)
Inductive reachable : state → Prop :=
  | reachable_initial : reachable initial
  | reachable_select rowIndex colIndex st :
      reachable st → reachable (handleSelectSquare rowIndex colIndex st)
  | reachable_rename symbol newName st :
      reachable st → reachable (handlePlayerNameChange symbol newName st).

End App.

(** ** Notions of the specification *)

(** The coordinates a log touches, in the order of the log. *)
Definition squares (log : list Turn) : list Square := square <$> log.

(** Every coordinate of the log lies on the 3×3 grid. *)
Definition on_grid (log : list Turn) : Prop :=
  Forall (λ t, row (square t) < 3 ∧ col (square t) < 3) log.

(** A log of strictly alternating symbols whose first move is by "X": the
    log is most-recent-first, so the head of a log with [n] older entries is
    move number [n]. *)
Fixpoint alternating (log : list Turn) : Prop :=
  match log with
  | [] => True
  | t :: older =>
      player t = (if Nat.even (length older) then "X" else "O") ∧ alternating older
  end.

(** A 3×3 grid. *)
Definition three_by_three (b : board) : Prop :=
  length b = 3 ∧ Forall (λ line, length line = 3) b.

(** The number of cells that are not [null]. *)
Definition non_empty_cells (b : board) : nat :=
  length (filter (λ v, v ≠ Null) (concat b)).

(** All cells hold something. *)
Definition full (b : board) : Prop :=
  Forall (Forall (λ v, v ≠ Null)) b.

(** The symbol of a line of the table when its three cells hold the same
    symbol (a non-empty string). *)
Definition line_symbol (b : board) (c : combination) : option string :=
  match read b (Combo.row c.1.1) (Combo.column c.1.1),
        read b (Combo.row c.1.2) (Combo.column c.1.2),
        read b (Combo.row c.2) (Combo.column c.2) with
  | Ok (Str s), Ok v2, Ok v3 =>
      if decide (s ≠ "" ∧ v2 = Str s ∧ v3 = Str s) then Some s else None
  | _, _, _ => None
  end.

(** No line of the table is complete. *)
Definition no_line (b : board) : Prop :=
  Forall (λ c, line_symbol b c = None) WINNING_COMBINATIONS.

(** The symbol of the last complete line among [cs], in the order of [cs]. *)
Fixpoint last_line (b : board) (cs : list combination) : option string :=
  match cs with
  | [] => None
  | c :: cs' =>
      match last_line b cs' with
      | Some s => Some s
      | None => line_symbol b c
      end
  end.

(** The rows a line of the table reads exist on the board. *)
Definition rows_on (b : board) (c : combination) : Prop :=
  Combo.row c.1.1 < length b ∧ Combo.row c.1.2 < length b ∧ Combo.row c.2 < length b.

(** ** Sample games *)

Definition turn_at (r c : nat) (p : string) : Turn :=
  {| square := {| row := r; col := c |}; player := p |}.

(** Five moves, most recent first, completing row 0 for "X". *)
Definition row0_log : list Turn :=
  [ turn_at 0 2 "X"; turn_at 1 1 "O"; turn_at 0 1 "X"; turn_at 2 0 "O"; turn_at 0 0 "X" ].

(** Two moves on the same square: "X" first, then "O". *)
Definition twice_log : list Turn := [ turn_at 0 0 "O"; turn_at 0 0 "X" ].

(** A board on which rows 0 and 1 are both complete, with different symbols. *)
Definition two_lines_board : board :=
  [ [Str "X"; Str "X"; Str "X"]; [Str "O"; Str "O"; Str "O"]; [Null; Null; Null] ].

(** Nine moves, most recent first, that fill the grid without a line. *)
Definition draw_log : list Turn :=
  [ turn_at 2 2 "X"; turn_at 1 2 "O"; turn_at 2 1 "X"; turn_at 2 0 "O"; turn_at 1 0 "X";
    turn_at 1 1 "O"; turn_at 0 2 "X"; turn_at 0 1 "O"; turn_at 0 0 "X" ].


(** A component state holding a given log and registry. *)
Definition state_of (log : list Turn) (players : gmap string string) : App.state :=
  {| App.arrays := {[ 1%positive := log ]};
     App.gameTurns := 1%positive;
     App.players := players |}.

(** ** The board and log components *)

Module GameBoard.
(** [disabled={playerSymbol !== null}] on the button rendered for each
    element of each row: the button of a square can be clicked when the
    board has that square and it holds [null]. *)
Definition enabled (gameBoard : board) (rowIndex colIndex : nat) : bool :=
  match gameBoard !! rowIndex with
  | Some line =>
      match line !! colIndex with
      | Some playerSymbol => bool_decide (playerSymbol = Null)
      | None => false
      end
  | None => false
  end.
End GameBoard.

Module Log.
(** The key of a log entry, [`${turn.square.row}${turn.square.col}`]. *)
Definition key (turn : Turn) : string :=
  pretty (row (square turn)) +:+ pretty (col (square turn)).
End Log.

(** The states the game goes through when it is used through what it
    renders: a square is selected by a click on its button, which is there
    and enabled only as [GameBoard.enabled] says; a name is saved by a
    player component. *)
Inductive played : App.state → Prop :=
  | played_initial : played App.initial
  | played_click rowIndex colIndex st b :
      played st →
      App.gameBoard st = Ok b →
      GameBoard.enabled b rowIndex colIndex = true →
      played (App.handleSelectSquare rowIndex colIndex st)
  | played_rename symbol newName st :
      played st → played (App.handlePlayerNameChange symbol newName st).

(** ** The player component *)

Module Player.

Record state : Type := { playerName : string; isEditing : bool }.

(** [useState(initialName)] and [useState(false)]. *)
Definition initial (initialName : string) : state :=
  {| playerName := initialName; isEditing := false |}.

(** [setPlayerName(event.target.value)]. *)
Definition handleChange (value : string) (st : state) : state :=
  {| playerName := value; isEditing := isEditing st |}.

(** [setIsEditing((editing) => !editing)], and [onChangeName(symbol,
    playerName)] when the component was editing; [onChangeName] is the
    parent's [handlePlayerNameChange]. The result is the state of the
    component and that of its parent. *)
Definition handleEditClick (symbol : string) (st : state) (parent : App.state)
    : state * App.state :=
  ({| playerName := playerName st; isEditing := negb (isEditing st) |},
   if isEditing st
   then App.handlePlayerNameChange symbol (playerName st) parent
   else parent).

End Player.




(** ** Boards as arrays of arrays in a store *)

Module Heap.

(** The row arrays allocated so far, by reference; a board is the list of
    the references of its rows. *)
Abbreviation store := (gmap positive (list value)) (only parsing).

(** [[...array]]: a new array with the elements of [array]. *)
Definition spread (h : store) (array : positive) : store * positive :=
  let ref := fresh (dom h) in (<[ref := h !!! array]> h, ref).

(** [[...INITIAL_GAME_BOARD.map((array) => [...array])]]. *)
Fixpoint map_spread (h : store) (outer : list positive) : store * list positive :=
  match outer with
  | [] => (h, [])
  | array :: rest =>
      let '(h1, ref) := spread h array in
      let '(h2, refs) := map_spread h1 rest in
      (h2, ref :: refs)
  end.

(** [gameBoard[row][col] = player] on the row array the board refers to. *)
Definition place (h : store) (gameBoard : list positive) (turn : Turn)
    : store * result unit :=
  match gameBoard !! row (square turn) with
  | None => (h, TypeError)
  | Some ref =>
      (<[ref := array_set (h !!! ref) (col (square turn)) (Str (player turn))]> h,
       Ok ())
  end.

(** The loop over the turns; the store is the one at the end of the loop or
    at the throw. *)
Fixpoint replay (h : store) (gameBoard : list positive) (gameTurns : list Turn)
    : store * result unit :=
  match gameTurns with
  | [] => (h, Ok ())
  | turn :: rest =>
      match place h gameBoard turn with
      | (h1, Ok _) => replay h1 gameBoard rest
      | (h1, TypeError) => (h1, TypeError)
      end
  end.

(** [deriveGameBoard] in a store in which the rows of [INITIAL_GAME_BOARD]
    are the arrays [template]. *)
Definition deriveGameBoard (h : store) (template : list positive)
    (gameTurns : list Turn) : store * result (list positive) :=
  let '(h1, gameBoard) := map_spread h template in
  let '(h2, r) := replay h1 gameBoard gameTurns in
  (h2, match r with Ok _ => Ok gameBoard | TypeError => TypeError end).

(** The cells of a board of the store. *)
Definition contents (h : store) (outer : list positive) : list (list value) :=
  (λ ref, h !!! ref) <$> outer.

End Heap.

(** ** The timer challenge *)

Module Timer.

(** Times are whole numbers of milliseconds; [targetTime] is a whole number
    of seconds, as in the four challenges the application renders. The
    numbers of JavaScript are doubles: whole numbers up to 2^53 =
    9007199254740992 in absolute value are doubles, and [*], [-] and the
    comparisons are exact on them as long as the result stays in that
    range. The integers of this model are therefore the code's numbers
    only while [targetTime * 1000] is at most 2^53 and not negative, which
    the properties below assume ([safe_target]); beyond it the code's
    [prevRemainingTime - 10] rounds. The state of the component: the
    [remainingTime] state variable, the interval identifier held in
    [timerRef], the intervals that are running, the next identifier
    [setInterval] hands out, and whether the result dialog is open. *)
Record state : Type := {
  remainingTime : Z;
  timerRef : option nat;
  running : gset nat;
  next_id : nat;
  modal : bool
}.

(** [useState(targetTime * 1000)], [useRef(null)]. *)
Definition initial (targetTime : Z) : state :=
  {| remainingTime := targetTime * 1000;
     timerRef := None;
     running := ∅;
     next_id := 1;
     modal := false |}.

(** The target times for which every number the component computes is a
    whole number between 0 and 2^53. *)
Definition safe_target (targetTime : Z) : Prop :=
  (0 ≤ targetTime ∧ targetTime * 1000 ≤ 9007199254740992)%Z.

Definition timerActive (targetTime : Z) (st : state) : bool :=
  bool_decide (0 < remainingTime st)%Z
  && bool_decide (remainingTime st < targetTime * 1000)%Z.

Definition timerExpired (st : state) : bool :=
  bool_decide (remainingTime st ≤ 0)%Z.

(** [clearInterval(timerRef.current)]; clearing [null] does nothing. *)
Definition clearInterval (id : option nat) (ids : gset nat) : gset nat :=
  match id with
  | Some i => ids ∖ {[ i ]}
  | None => ids
  end.

(** [timerRef.current = setInterval(..., 10)]. *)
Definition handleStartChallenge (st : state) : state :=
  {| remainingTime := remainingTime st;
     timerRef := Some (next_id st);
     running := {[ next_id st ]} ∪ running st;
     next_id := S (next_id st);
     modal := modal st |}.

(** One run of the interval callback. *)
Definition tick (st : state) : state :=
  if bool_decide (remainingTime st ≤ 0)%Z
  then {| remainingTime := 0;
          timerRef := timerRef st;
          running := clearInterval (timerRef st) (running st);
          next_id := next_id st;
          modal := true |}
  else {| remainingTime := remainingTime st - 10;
          timerRef := timerRef st;
          running := running st;
          next_id := next_id st;
          modal := modal st |}.

Definition handleStopChallenge (st : state) : state :=
  {| remainingTime := remainingTime st;
     timerRef := timerRef st;
     running := clearInterval (timerRef st) (running st);
     next_id := next_id st;
     modal := true |}.

Definition handleReset (targetTime : Z) (st : state) : state :=
  {| remainingTime := targetTime * 1000;
     timerRef := timerRef st;
     running := running st;
     next_id := next_id st;
     modal := modal st |}.

(** The dialog closes and its [onClose] runs [handleModalClose]. *)
Definition handleModalClose (targetTime : Z) (st : state) : state :=
  handleReset targetTime
    {| remainingTime := remainingTime st;
       timerRef := timerRef st;
       running := running st;
       next_id := next_id st;
       modal := false |}.

(** [onClick={timerActive ? handleStopChallenge : handleStartChallenge}]. *)
Definition click (targetTime : Z) (st : state) : state :=
  if timerActive targetTime st then handleStopChallenge st
  else handleStartChallenge st.

(** [result={timerExpired ? 'lost' : 'won'}]. *)
Definition result_prop (st : state) : string :=
  if timerExpired st then "lost" else "won".

(** What can happen next: a click on the button, a run of the callback of
    an interval that is running, the closing of the dialog. *)
Inductive step (targetTime : Z) : state → state → Prop :=
  | step_click st : step targetTime st (click targetTime st)
  | step_tick st id : id ∈ running st → step targetTime st (tick st)
  | step_close st : step targetTime st (handleModalClose targetTime st).

End Timer.

(** ** The welcome form *)

Module Welcome.

(** The text in the input the ref points to and the [submittedPlayerName]
    state variable. *)
Record state : Type := { input : string; submittedPlayerName : string }.

Definition initial : state := {| input := ""; submittedPlayerName := "" |}.

(** The user edits the input. *)
Definition type (text : string) (st : state) : state :=
  {| input := text; submittedPlayerName := submittedPlayerName st |}.

(** [setSubmittedPlayerName(playerNameRef.current.value)] and
    [playerNameRef.current.value = '']. *)
Definition handleSubmit (st : state) : state :=
  {| input := ""; submittedPlayerName := input st |}.

(** [{submittedPlayerName || 'unknown entity'}]. *)
Definition shown_name (st : state) : string :=
  if String.eqb (submittedPlayerName st) "" then "unknown entity"
  else submittedPlayerName st.

End Welcome.

(** ** The results table *)

Module Results.

(** An element of [results]. [F] stands for the numbers of JavaScript, of
    whose arithmetic the running total uses only [+], here [add]. *)
Record entry (F : Type) : Type := { year : F; interest : F; valueEndOfYear : F }.
Arguments interest {F} _.

(** [results.slice(0, index + 1).reduce((sum, r) => sum + r.interest, 0)]. *)
Definition totalInterest {F : Type} (add : F → F → F) (zero : F)
    (results : list (entry F)) (index : nat) : F :=
  foldl (λ sum r, add sum (interest r)) zero (take (index + 1) results).

End Results.

(** ** Further notions *)

(** The symbol of the turn of the log at a square that is replayed last,
    the oldest one. *)
Fixpoint oldest_at (log : list Turn) (sq : Square) : option string :=
  match log with
  | [] => None
  | t :: older =>
      match oldest_at older sq with
      | Some p => Some p
      | None => if decide (square t = sq) then Some (player t) else None
      end
  end.


(** The time a challenge shows. *)
Definition time_in_range (targetTime : Z) (st : Timer.state) : Prop :=
  (0 ≤ Timer.remainingTime st ≤ targetTime * 1000)%Z
  ∧ ∃ q : Z, Timer.remainingTime st = (10 * q)%Z.

(** The state while the one interval started from the initial state runs. *)
Definition counting (targetTime : Z) (remaining : Z) : Timer.state :=
  {| Timer.remainingTime := remaining;
     Timer.timerRef := Some 1;
     Timer.running := {[ 1 ]} ∪ ∅;
     Timer.next_id := 2;
     Timer.modal := false |}.

(** Closed decidable facts about the sample games are settled by
    evaluation. *)
Ltac by_compute := apply (bool_decide_unpack _); vm_compute; exact I.

(** ** Arrays *)

Section arrays.
Implicit Types (arr : list value) (v w : value) (i j k : nat).

Lemma array_set_length arr i v :
  length (array_set arr i v) = length arr `max` S i.
Proof.
  unfold array_set. case_decide.
  - rewrite length_insert. lia.
  - rewrite !length_app, length_replicate. simpl. lia.
Qed.

Lemma array_set_lookup arr i v k :
  array_set arr i v !! k =
    if decide (k = i) then Some v
    else if decide (k < length arr) then arr !! k
    else if decide (k < i) then Some Undefined
    else None.
Proof.
  unfold array_set. destruct (decide (i < length arr)) as [Hi|Hi].
  - destruct (decide (k = i)) as [->|Hk].
    + by apply list_lookup_insert_eq.
    + rewrite list_lookup_insert_ne by done.
      repeat case_decide; try done; try lia; apply lookup_ge_None; lia.
  - destruct (decide (k = i)) as [->|Hk].
    + rewrite lookup_app_r by lia.
      rewrite lookup_app_r by (rewrite length_replicate; lia).
      rewrite length_replicate.
      by replace (i - length arr - (i - length arr)) with 0 by lia.
    + destruct (decide (k < length arr)).
      * by rewrite lookup_app_l.
      * rewrite lookup_app_r by lia. destruct (decide (k < i)).
        -- rewrite lookup_app_l by (rewrite length_replicate; lia).
           apply lookup_replicate_2. lia.
        -- apply lookup_ge_None. rewrite length_app, length_replicate. simpl. lia.
Qed.

Lemma array_get_set arr i v k :
  array_get (array_set arr i v) k = if decide (k = i) then v else array_get arr k.
Proof.
  unfold array_get. rewrite array_set_lookup.
  repeat case_decide; try done.
  - by rewrite (proj2 (lookup_ge_None arr k)) by lia.
  - by rewrite (proj2 (lookup_ge_None arr k)) by lia.
Qed.

(** Writes to different slots commute, also when they extend the array. *)
Lemma array_set_comm arr i j v w :
  i ≠ j →
  array_set (array_set arr i v) j w = array_set (array_set arr j w) i v.
Proof.
  intros Hij. apply list_eq. intros k.
  rewrite !array_set_lookup, !array_set_length.
  repeat case_decide; try done; try lia.
Qed.

Lemma array_set_in_range arr i v :
  i < length arr → array_set arr i v = <[i:=v]> arr.
Proof. intros. unfold array_set. by rewrite decide_True. Qed.
End arrays.

(** ** Replaying turns on a board *)

Section replay.
Implicit Types (b : board) (t : Turn) (log : list Turn) (r c : nat).

Lemma place_ok b t :
  row (square t) < length b → ∃ b', place b t = Ok b'.
Proof.
  intros Hr. unfold place.
  destruct (lookup_lt_is_Some_2 b _ Hr) as [line ->]. eauto.
Qed.

Lemma place_length b t b' : place b t = Ok b' → length b' = length b.
Proof.
  unfold place. destruct (b !! row (square t)); [|done].
  intros [= <-]. apply length_insert.
Qed.

Lemma place_row_lt b t b' : place b t = Ok b' → row (square t) < length b.
Proof.
  unfold place. destruct (b !! row (square t)) eqn:E; [|done].
  intros _. by eapply lookup_lt_Some.
Qed.

(** What a cell reads after one write. *)
Lemma read_place b t b' r c :
  place b t = Ok b' →
  read b' r c =
    if decide (r = row (square t) ∧ c = col (square t))
    then Ok (Str (player t)) else read b r c.
Proof.
  unfold place. destruct (b !! row (square t)) as [line|] eqn:E; [|done].
  intros [= <-]. unfold read.
  destruct (decide (r = row (square t))) as [->|Hr].
  - rewrite list_lookup_insert_eq by (by eapply lookup_lt_Some).
    rewrite E, array_get_set.
    destruct (decide (c = col (square t))).
    + by rewrite decide_True.
    + by rewrite decide_False by tauto.
  - rewrite list_lookup_insert_ne by done.
    by rewrite decide_False by tauto.
Qed.

(** Writes to different cells commute, whatever they do to the board. *)
Lemma place_comm b t1 t2 :
  square t1 ≠ square t2 →
  (b1 ← place b t1; place b1 t2) = (b2 ← place b t2; place b2 t1).
Proof.
  destruct t1 as [[r1 c1] p1], t2 as [[r2 c2] p2]. simpl. intros Hne.
  unfold place. simpl.
  destruct (b !! r1) as [l1|] eqn:E1, (b !! r2) as [l2|] eqn:E2; simpl.
  - pose proof (lookup_lt_Some _ _ _ E1). pose proof (lookup_lt_Some _ _ _ E2).
    destruct (decide (r1 = r2)) as [->|Hr].
    + assert (c1 ≠ c2) by congruence. simplify_eq.
      rewrite !list_lookup_insert_eq by done.
      rewrite !list_insert_insert_eq. by rewrite array_set_comm.
    + rewrite !list_lookup_insert_ne by done. rewrite E1, E2.
      by rewrite list_insert_insert_ne.
  - destruct (decide (r1 = r2)) as [->|Hr]; [congruence|].
    rewrite list_lookup_insert_ne by done. by rewrite E2.
  - destruct (decide (r1 = r2)) as [->|Hr]; [congruence|].
    rewrite list_lookup_insert_ne by done. by rewrite E1.
  - done.
Qed.

Lemma for_of_place_perm log log' :
  log ≡ₚ log' → NoDup (squares log) →
  ∀ b, for_of place b log = for_of place b log'.
Proof.
  induction 1 as [|t l l' Hp IH|t1 t2 l|l1 l2 l3 Hp1 IH1 Hp2 IH2]; intros Hnd b.
  - done.
  - simpl. apply NoDup_cons in Hnd as [_ Hnd].
    destruct (place b t); simpl; [by apply IH|done].
  - simpl. unfold squares in Hnd. simpl in Hnd.
    apply NoDup_cons in Hnd as [Hin _].
    assert (square t2 ≠ square t1) as Hne.
    { intros Heq. apply Hin. rewrite Heq. by left. }
    pose proof (place_comm b t2 t1 Hne) as Hc.
    destruct (place b t1) as [b1|], (place b t2) as [b2|]; simpl in *.
    + by rewrite Hc.
    + by rewrite <- Hc.
    + by rewrite Hc.
    + done.
  - rewrite IH1 by done. apply IH2.
    unfold squares in *. by rewrite <- Hp1.
Qed.

(** The cell a turn of the log wrote last: the turn nearest to the end of
    the log, which is the oldest one. *)
Lemma read_for_of_last log1 t log2 b b' :
  for_of place b (log1 ++ t :: log2) = Ok b' →
  square t ∉ squares log2 →
  read b' (row (square t)) (col (square t)) = Ok (Str (player t)).
Proof.
  revert b. induction log1 as [|t1 log1 IH]; simpl; intros b.
  - destruct (place b t) as [b1|] eqn:E1; simpl; [|done].
    assert (read b1 (row (square t)) (col (square t)) = Ok (Str (player t))) as Hb1.
    { erewrite read_place by done. by rewrite decide_True. }
    clear E1. revert b1 Hb1.
    induction log2 as [|t2 log2 IH2]; simpl; intros b1 Hb1 Hfor Hnin.
    + congruence.
    + destruct (place b1 t2) as [b2|] eqn:E2; simpl in Hfor; [|done].
      apply not_elem_of_cons in Hnin as [Hne Hnin].
      apply (IH2 b2); [|done|done].
      erewrite read_place by done. rewrite decide_False; [done|].
      intros [? ?]. apply Hne. destruct (square t), (square t2); simpl in *; congruence.
  - destruct (place b t1) as [b1|]; simpl; [|done]. apply IH.
Qed.

(** Cells no turn of the log touches keep their value. *)
Lemma read_for_of_other log b b' r c :
  for_of place b log = Ok b' →
  {| row := r; col := c |} ∉ squares log →
  read b' r c = read b r c.
Proof.
  revert b. induction log as [|t log IH]; simpl; intros b Hfor Hnin.
  - congruence.
  - destruct (place b t) as [b1|] eqn:E1; simpl in Hfor; [|done].
    apply not_elem_of_cons in Hnin as [Hne Hnin].
    rewrite (IH b1) by done. erewrite read_place by done.
    rewrite decide_False; [done|].
    intros [-> ->]. apply Hne. by destruct (square t).
Qed.

Lemma for_of_place_ok log b :
  Forall (λ t, row (square t) < length b) log →
  ∃ b', for_of place b log = Ok b'.
Proof.
  revert b. induction log as [|t log IH]; simpl; intros b Hall.
  - eauto.
  - apply Forall_cons in Hall as [Ht Hall].
    destruct (place_ok b t Ht) as [b1 E1]. rewrite E1. simpl.
    apply IH. by rewrite (place_length _ _ _ E1).
Qed.

Lemma for_of_place_length log b b' :
  for_of place b log = Ok b' → length b' = length b.
Proof.
  revert b. induction log as [|t log IH]; simpl; intros b Hfor.
  - congruence.
  - destruct (place b t) as [b1|] eqn:E1; simpl in Hfor; [|done].
    rewrite (IH _ Hfor). by eapply place_length.
Qed.
End replay.

(** ** Counting cells *)

Section counting.
Context {A : Type} (P : A → Prop) `{!∀ x, Decision (P x)}.

Lemma filter_length_insert (l : list A) i x y :
  l !! i = Some y → ¬ P y → P x →
  length (filter P (<[i:=x]> l)) = S (length (filter P l)).
Proof.
  intros Hi Hy Hx.
  rewrite insert_take_drop by (by eapply lookup_lt_Some).
  rewrite <- (take_drop_middle l i y Hi) at 3.
  rewrite !filter_app, !length_app.
  rewrite (filter_cons_True P x) by done.
  rewrite (filter_cons_False P y) by done.
  simpl. lia.
Qed.

Lemma filter_length_all (l : list A) :
  length (filter P l) = length l ↔ Forall P l.
Proof.
  induction l as [|x l IH]; simpl.
  - split; [constructor|done].
  - destruct (decide (P x)) as [Hx|Hx].
    + rewrite filter_cons_True by done. simpl. rewrite Forall_cons.
      split; [intros [= ?]; tauto|intros [_ ?]; f_equal; tauto].
    + rewrite filter_cons_False by done. rewrite Forall_cons.
      pose proof (length_filter P l). split; [lia|tauto].
Qed.
End counting.

Section boards.
Implicit Types (b : board) (t : Turn) (log : list Turn) (r c : nat).

Lemma non_empty_cells_place b t b' :
  place b t = Ok b' →
  col (square t) < 3 →
  Forall (λ line, length line = 3) b →
  read b (row (square t)) (col (square t)) = Ok Null →
  Forall (λ line, length line = 3) b' ∧ non_empty_cells b' = S (non_empty_cells b).
Proof.
  unfold place, read. destruct (b !! row (square t)) as [line|] eqn:E; [|done].
  intros [= <-] Hc Hshape [= Hnull].
  assert (length line = 3) as Hlen.
  { by eapply (Forall_lookup_1 _ _ _ _ Hshape). }
  rewrite array_set_in_range by lia.
  split.
  - apply Forall_insert; [done|]. by rewrite length_insert.
  - unfold non_empty_cells.
    assert (line !! col (square t) = Some Null) as Hcell.
    { unfold array_get in Hnull.
      destruct (lookup_lt_is_Some_2 line (col (square t))) as [v Hv]; [lia|].
      rewrite Hv in Hnull. simpl in Hnull. by subst. }
    rewrite insert_take_drop by (by eapply lookup_lt_Some).
    rewrite <- (take_drop_middle b _ line E) at 3.
    rewrite !concat_app, !concat_cons, !filter_app, !length_app.
    rewrite (filter_length_insert _ _ _ _ Null); [lia|done| |done].
    intros Hn. by apply Hn.
Qed.

(** Replaying a log of distinct grid coordinates on a 3×3 board whose
    cells at these coordinates are empty fills one more cell per turn. *)
Lemma for_of_place_count log b :
  three_by_three b → on_grid log → NoDup (squares log) →
  Forall (λ t, read b (row (square t)) (col (square t)) = Ok Null) log →
  ∃ b', for_of place b log = Ok b' ∧ three_by_three b'
        ∧ non_empty_cells b' = non_empty_cells b + length log.
Proof.
  revert b. induction log as [|t log IH]; simpl; intros b Hb Hgrid Hnd Hnull.
  - exists b. split_and!; [done|done|lia].
  - apply Forall_cons in Hgrid as [[Hr Hc] Hgrid].
    apply NoDup_cons in Hnd as [Hnin Hnd].
    apply Forall_cons in Hnull as [Ht Hnull].
    destruct Hb as [Hlen Hshape].
    destruct (place_ok b t) as [b1 E1]; [lia|]. rewrite E1. simpl.
    destruct (non_empty_cells_place b t b1 E1 Hc Hshape Ht) as [Hshape1 Hcount1].
    destruct (IH b1) as (b' & Hfor & Hb' & Hcount); try done.
    + split; [|done]. by rewrite (place_length _ _ _ E1).
    + rewrite Forall_forall in Hnull |- *. intros t' Hin.
      erewrite read_place by done. rewrite decide_False; [by apply Hnull|].
      intros [Hr' Hc']. apply Hnin. apply list_elem_of_fmap.
      exists t'. split; [|done].
      destruct (square t), (square t'); simpl in *; congruence.
    + exists b'. split_and!; [done|done|lia].
Qed.

Lemma three_by_three_cells b :
  three_by_three b → length (concat b) = 9.
Proof.
  intros [Hlen Hshape].
  destruct b as [|l0 [|l1 [|l2 [|]]]]; try done.
  apply Forall_cons in Hshape as [H0 Hshape].
  apply Forall_cons in Hshape as [H1 Hshape].
  apply Forall_cons in Hshape as [H2 _].
  simpl. rewrite !length_app. simpl. lia.
Qed.

(** On a 3×3 board, all cells are taken exactly when 9 cells are. *)
Lemma full_iff_nine b :
  three_by_three b → full b ↔ non_empty_cells b = 9.
Proof.
  intros Hb. unfold full, non_empty_cells.
  rewrite <- Forall_concat, <- filter_length_all.
  by rewrite (three_by_three_cells b Hb).
Qed.

Lemma deriveGameBoard_shape log :
  on_grid log → NoDup (squares log) →
  ∃ b, deriveGameBoard log = Ok b ∧ three_by_three b
       ∧ non_empty_cells b = length log.
Proof.
  intros Hgrid Hnd.
  destruct (for_of_place_count log INITIAL_GAME_BOARD) as (b & Hfor & Hb & Hcount);
    try done.
  - split; [done|]. by repeat constructor.
  - unfold on_grid in Hgrid. rewrite Forall_forall in Hgrid |- *.
    intros t Hin. destruct (Hgrid t Hin) as [Hr Hc].
    destruct (row (square t)) as [|[|[|]]], (col (square t)) as [|[|[|]]];
      try lia; done.
  - exists b. split_and!; [done|done|]. rewrite Hcount. done.
Qed.
End boards.

(** ** Scanning the table *)

Section scan.
Implicit Types (b : board) (p : gmap string string) (w : option string).
Implicit Types (c : combination) (cs : list combination) (s : string).

Lemma rows_on_table b c :
  3 ≤ length b → c ∈ WINNING_COMBINATIONS → rows_on b c.
Proof.
  intros Hb Hc. unfold WINNING_COMBINATIONS in Hc.
  repeat (apply elem_of_cons in Hc as [->|Hc]; [unfold rows_on; simpl; lia|]).
  by apply elem_of_nil in Hc.
Qed.

Lemma truthy_Str s : truthy (Str s) = true ↔ s ≠ "".
Proof.
  simpl. rewrite negb_true_iff. split.
  - intros H ->. done.
  - intros H. by apply String.eqb_neq.
Qed.

Lemma all_three_match_Str s v2 v3 :
  all_three_match (Str s) v2 v3 = true ↔ s ≠ "" ∧ v2 = Str s ∧ v3 = Str s.
Proof.
  unfold all_three_match, strict_eq.
  rewrite !andb_true_iff, !bool_decide_eq_true, truthy_Str.
  split; [intros [[? ?] ?]|intros (? & ? & ?)]; by subst.
Qed.

(** One iteration either takes the name of the line's symbol or keeps
    [winner]. *)
Lemma check_combination_line b p w c :
  rows_on b c →
  check_combination b p w c =
    Ok (match line_symbol b c with Some s => p !! s | None => w end).
Proof.
  intros (H1 & H2 & H3). unfold check_combination, line_symbol, read.
  destruct (lookup_lt_is_Some_2 b _ H1) as [l1 ->].
  destruct (lookup_lt_is_Some_2 b _ H2) as [l2 ->].
  destruct (lookup_lt_is_Some_2 b _ H3) as [l3 ->].
  simpl.
  destruct (array_get l1 _) as [| |s]; try done.
  destruct (all_three_match _ _ _) eqn:E.
  - apply all_three_match_Str in E. by rewrite decide_True.
  - rewrite decide_False; [done|].
    intros H. apply all_three_match_Str in H. congruence.
Qed.

(** The loop returns the name of the last complete line it meets. *)
Lemma for_of_check_last b p cs : ∀ w,
  Forall (rows_on b) cs →
  for_of (check_combination b p) w cs =
    Ok (match last_line b cs with Some s => p !! s | None => w end).
Proof.
  induction cs as [|c cs IH]; simpl; intros w Hrows.
  - done.
  - apply Forall_cons in Hrows as [Hc Hrows].
    rewrite check_combination_line by done. simpl.
    rewrite IH by done.
    destruct (last_line b cs); [done|]. by destruct (line_symbol b c).
Qed.

Lemma deriveWinner_last_line b p :
  3 ≤ length b →
  deriveWinner b p =
    Ok (match last_line b WINNING_COMBINATIONS with Some s => p !! s | None => None end).
Proof.
  intros Hb. unfold deriveWinner. apply for_of_check_last.
  apply Forall_forall. intros c Hc. by apply rows_on_table.
Qed.

Lemma last_line_split b before c after s :
  line_symbol b c = Some s →
  Forall (λ c', line_symbol b c' = None) after →
  last_line b (before ++ c :: after) = Some s.
Proof.
  intros Hc Hafter.
  assert (last_line b after = None) as Hnone.
  { induction Hafter as [|c' after Hc' _ IH]; simpl; [done|]. by rewrite IH. }
  induction before as [|c0 before IH]; simpl.
  - by rewrite Hnone.
  - by rewrite IH.
Qed.

Lemma last_line_None b cs :
  last_line b cs = None ↔ Forall (λ c, line_symbol b c = None) cs.
Proof.
  induction cs as [|c cs IH]; simpl.
  - split; [constructor|done].
  - rewrite Forall_cons. destruct (last_line b cs) eqn:E.
    + split; [done|]. intros [_ H]. apply IH in H. done.
    + split; [intros ?; split; [done|by apply IH]|tauto].
Qed.

Lemma last_line_Some b cs s :
  last_line b cs = Some s → ∃ c, c ∈ cs ∧ line_symbol b c = Some s.
Proof.
  induction cs as [|c cs IH]; simpl; [done|].
  destruct (last_line b cs) eqn:E.
  - intros [= ->]. destruct IH as (c' & ? & ?); [done|].
    exists c'. split; [by right|done].
  - intros Hc. exists c. split; [by left|done].
Qed.

Lemma last_line_exists b cs :
  (∃ c, c ∈ cs ∧ is_Some (line_symbol b c)) →
  ∃ s, last_line b cs = Some s.
Proof.
  intros (c & Hin & Hc).
  destruct (last_line b cs) as [s|] eqn:E; [eauto|].
  apply last_line_None in E. rewrite Forall_forall in E.
  rewrite (E c Hin) in Hc. by destruct Hc.
Qed.
End scan.

(** ** The sample games of the specification *)

Example row0_board :
  deriveGameBoard row0_log
  = Ok [ [Str "X"; Str "X"; Str "X"]; [Null; Str "O"; Null]; [Str "O"; Null; Null] ].
Proof. reflexivity. Qed.

Example row0_winner :
  (b ← deriveGameBoard row0_log; deriveWinner b PLAYERS) = Ok (Some "Player 1").
Proof. vm_compute. reflexivity. Qed.

Example empty_log :
  deriveActivePlayer [] = "X"
  ∧ deriveGameBoard [] = Ok INITIAL_GAME_BOARD
  ∧ deriveWinner INITIAL_GAME_BOARD PLAYERS = Ok None.
Proof. split_and!; reflexivity. Qed.

(** ** Properties of the board *)

Lemma deriveGameBoard_ok log :
  on_grid log → ∃ b, deriveGameBoard log = Ok b.
Proof.
  intros Hgrid. apply for_of_place_ok.
  eapply Forall_impl; [exact Hgrid|]. simpl. intros t [Hr _]. exact Hr.
Qed.

Lemma deriveGameBoard_length log b :
  deriveGameBoard log = Ok b → length b = 3.
Proof. intros H. by apply for_of_place_length in H. Qed.

Lemma read_initial r c :
  r < 3 → c < 3 → read INITIAL_GAME_BOARD r c = Ok Null.
Proof.
  intros Hr Hc. destruct r as [|[|[|]]], c as [|[|[|]]]; try lia; done.
Qed.

(** C1, as the specification states it, fails: when the log records "X" and
    then "O" on square (0,0), the board holds "X", the older of the two,
    not "O", the most recent one. *)
Lemma materialize_newest_wins_counterexample :
  twice_log = [ turn_at 0 0 "O"; turn_at 0 0 "X" ]
  ∧ deriveGameBoard twice_log
    = Ok [ [Str "X"; Null; Null]; [Null; Null; Null]; [Null; Null; Null] ]
  ∧ (b ← deriveGameBoard twice_log; read b 0 0) = Ok (Str "X")
  ∧ (b ← deriveGameBoard twice_log; read b 0 0) ≠ Ok (Str "O").
Proof. split_and!; [reflexivity|reflexivity|reflexivity|discriminate]. Qed.

(** C1 (amended): for every log on the grid that records two moves at the
    same coordinate, [newer] nearer to the head of the log than [older], and
    nothing older than [older] at that coordinate, [deriveGameBoard] returns
    a board, without any error, on which that cell holds the symbol of
    [older]: the replay runs from the most recent move to the oldest, so the
    oldest write is the last one. *)
Theorem materialize_oldest_wins (l1 l2 l3 : list Turn) (newer older : Turn) :
  on_grid (l1 ++ newer :: l2 ++ older :: l3) →
  square newer = square older →
  square older ∉ squares l3 →
  ∃ b, deriveGameBoard (l1 ++ newer :: l2 ++ older :: l3) = Ok b
       ∧ read b (row (square newer)) (col (square newer)) = Ok (Str (player older)).
Proof.
  intros Hgrid Hsame Hlast.
  destruct (deriveGameBoard_ok _ Hgrid) as [b Hb]. exists b. split; [done|].
  rewrite Hsame. unfold deriveGameBoard in Hb.
  replace (l1 ++ newer :: l2 ++ older :: l3)
    with ((l1 ++ newer :: l2) ++ older :: l3) in Hb
    by (by rewrite <- app_assoc).
  by eapply read_for_of_last.
Qed.

Lemma materialize_oldest_wins_witness :
  ∃ b, deriveGameBoard twice_log = Ok b ∧ read b 0 0 = Ok (Str "X").
Proof.
  apply (materialize_oldest_wins [] [] [] (turn_at 0 0 "O") (turn_at 0 0 "X")).
  - repeat constructor.
  - reflexivity.
  - apply not_elem_of_nil.
Defined.

(** C4: for every log of length N with no duplicate coordinates (all on the
    grid), [deriveGameBoard] returns a 3×3 board with exactly N cells that
    are not [null]; the cell at the coordinate of each turn holds its
    symbol and every other cell of the grid is [null]. *)
Theorem materialize_cells (log : list Turn) :
  on_grid log → NoDup (squares log) →
  ∃ b, deriveGameBoard log = Ok b
       ∧ three_by_three b
       ∧ non_empty_cells b = length log
       ∧ (∀ t, t ∈ log →
            read b (row (square t)) (col (square t)) = Ok (Str (player t)))
       ∧ (∀ r c, r < 3 → c < 3 → {| row := r; col := c |} ∉ squares log →
            read b r c = Ok Null).
Proof.
  intros Hgrid Hnd.
  destruct (deriveGameBoard_shape log Hgrid Hnd) as (b & Hb & Hshape & Hcount).
  exists b. split_and!; try done.
  - intros t Hin. apply list_elem_of_split in Hin as (l1 & l2 & ->).
    unfold deriveGameBoard in Hb. eapply read_for_of_last; [exact Hb|].
    unfold squares in Hnd. rewrite fmap_app, fmap_cons in Hnd.
    apply NoDup_app in Hnd as (_ & _ & Hnd).
    by apply NoDup_cons in Hnd as [? _].
  - intros r c Hr Hc Hnin.
    unfold deriveGameBoard in Hb.
    rewrite (read_for_of_other _ _ _ _ _ Hb Hnin). by apply read_initial.
Qed.

Lemma materialize_cells_witness :
  ∃ b, deriveGameBoard row0_log = Ok b
       ∧ three_by_three b
       ∧ non_empty_cells b = 5
       ∧ (∀ t, t ∈ row0_log →
            read b (row (square t)) (col (square t)) = Ok (Str (player t)))
       ∧ (∀ r c, r < 3 → c < 3 → {| row := r; col := c |} ∉ squares row0_log →
            read b r c = Ok Null).
Proof.
  apply (materialize_cells row0_log).
  - repeat constructor.
  - by_compute.
Defined.

(** C5: for every log with no duplicate coordinates and every permutation
    of it, [deriveGameBoard] gives the same result; on the grid this result
    is a board. *)
Theorem materialize_permutation (log log' : list Turn) :
  log ≡ₚ log' → NoDup (squares log) →
  deriveGameBoard log' = deriveGameBoard log
  ∧ (on_grid log → ∃ b, deriveGameBoard log' = Ok b).
Proof.
  intros Hperm Hnd.
  assert (deriveGameBoard log' = deriveGameBoard log) as Heq.
  { unfold deriveGameBoard. symmetry. by apply for_of_place_perm. }
  split; [done|]. rewrite Heq. apply deriveGameBoard_ok.
Qed.

Lemma materialize_permutation_witness :
  deriveGameBoard (reverse row0_log) = deriveGameBoard row0_log
  ∧ (on_grid row0_log → ∃ b, deriveGameBoard (reverse row0_log) = Ok b).
Proof.
  apply (materialize_permutation row0_log (reverse row0_log)).
  - symmetry. apply reverse_Permutation.
  - by_compute.
Defined.

(** ** Properties of the winner *)

(** C2: the loop of [deriveWinner] goes through the whole table, rows 0-2,
    then columns 0-2, then the two diagonals, and keeps the last match: for
    every board, if [c] is a complete line with symbol [s] and no line
    after [c] in the table is complete, the winner is the registry entry for
    [s], whatever lines before [c] are complete and whatever their symbols
    are. *)
Theorem evaluate_last_line_wins (b : board) (p : gmap string string)
    (before after : list combination) (c : combination) (s : string) :
  3 ≤ length b →
  WINNING_COMBINATIONS = before ++ c :: after →
  line_symbol b c = Some s →
  Forall (λ c', line_symbol b c' = None) after →
  deriveWinner b p = Ok (p !! s).
Proof.
  intros Hb Htable Hc Hafter.
  rewrite deriveWinner_last_line by done.
  rewrite Htable. by rewrite (last_line_split b before c after s).
Qed.

Lemma evaluate_last_line_wins_witness :
  line_symbol two_lines_board
    (Combo.Build_cell 0 0, Combo.Build_cell 0 1, Combo.Build_cell 0 2) = Some "X"
  ∧ deriveWinner two_lines_board PLAYERS = Ok (PLAYERS !! "O").
Proof.
  split; [reflexivity|].
  apply (evaluate_last_line_wins two_lines_board PLAYERS
           (take 1 WINNING_COMBINATIONS)
           (drop 2 WINNING_COMBINATIONS)
           (Combo.Build_cell 1 0, Combo.Build_cell 1 1, Combo.Build_cell 1 2)
           "O").
  - simpl. lia.
  - reflexivity.
  - reflexivity.
  - by_compute.
Defined.

(** C7: the name is looked up in the registry passed to the call: for every
    board with a complete line there is a symbol [s] of a complete line of
    the table such that [deriveWinner] returns the entry of [s] in whatever
    registry it is given; two registries with names [n1] and [n2] for [s]
    give [n1] and [n2] on the same board, and after [s] is renamed the new
    name is returned. *)
Theorem evaluate_uses_current_registry (b : board) :
  3 ≤ length b →
  (∃ c, c ∈ WINNING_COMBINATIONS ∧ is_Some (line_symbol b c)) →
  ∃ s, (∃ c, c ∈ WINNING_COMBINATIONS ∧ line_symbol b c = Some s)
       ∧ (∀ p, deriveWinner b p = Ok (p !! s))
       ∧ (∀ p1 p2 n1 n2, p1 !! s = Some n1 → p2 !! s = Some n2 →
            deriveWinner b p1 = Ok (Some n1) ∧ deriveWinner b p2 = Ok (Some n2))
       ∧ (∀ p newName, deriveWinner b (<[s := newName]> p) = Ok (Some newName)).
Proof.
  intros Hb Hline.
  destruct (last_line_exists b _ Hline) as [s Hs].
  assert (∀ p, deriveWinner b p = Ok (p !! s)) as Hwin.
  { intros p. rewrite deriveWinner_last_line by done. by rewrite Hs. }
  exists s. split_and!.
  - by apply last_line_Some.
  - done.
  - intros p1 p2 n1 n2 H1 H2. by rewrite !Hwin, H1, H2.
  - intros p newName. by rewrite Hwin, lookup_insert_eq.
Qed.

Lemma evaluate_uses_current_registry_witness :
  ∃ s, (∃ c, c ∈ WINNING_COMBINATIONS ∧ line_symbol two_lines_board c = Some s)
       ∧ (∀ p, deriveWinner two_lines_board p = Ok (p !! s))
       ∧ (∀ p1 p2 n1 n2, p1 !! s = Some n1 → p2 !! s = Some n2 →
            deriveWinner two_lines_board p1 = Ok (Some n1)
            ∧ deriveWinner two_lines_board p2 = Ok (Some n2))
       ∧ (∀ p newName,
            deriveWinner two_lines_board (<[s := newName]> p) = Ok (Some newName)).
Proof.
  apply (evaluate_uses_current_registry two_lines_board).
  - simpl. lia.
  - exists (Combo.Build_cell 0 0, Combo.Build_cell 0 1, Combo.Build_cell 0 2).
    split; [by left|by eexists].
Defined.

(** ** Properties of the active player and of the handler *)

Lemma active_player_parity (log : list Turn) :
  alternating log →
  deriveActivePlayer log = if Nat.even (length log) then "X" else "O".
Proof.
  destruct log as [|t older]; [done|].
  intros [Hp _]. cbn [deriveActivePlayer length].
  rewrite Hp, Nat.even_succ, <- Nat.negb_even.
  by destruct (Nat.even (length older)).
Qed.

(** C3: for every log of length N built by strictly alternating symbols
    starting with "X" (most recent first), [deriveActivePlayer] returns "X"
    when N is even and "O" when N is odd; this holds for every N, so for
    every N from 0 to 9. *)
Theorem activePlayer_alternates (log : list Turn) (N : nat) :
  length log = N → alternating log →
  deriveActivePlayer log = if Nat.even N then "X" else "O".
Proof. intros <-. apply active_player_parity. Qed.

Lemma activePlayer_alternates_witness :
  deriveActivePlayer row0_log = if Nat.even 5 then "X" else "O".
Proof.
  apply (activePlayer_alternates row0_log 5).
  - reflexivity.
  - simpl. repeat split.
Defined.

Lemma turns_handleSelectSquare rowIndex colIndex st :
  App.turns (App.handleSelectSquare rowIndex colIndex st)
  = {| square := {| row := rowIndex; col := colIndex |};
       player := deriveActivePlayer (App.turns st) |} :: App.turns st.
Proof.
  unfold App.turns, App.deref. simpl. by rewrite lookup_total_insert_eq.
Qed.

(** C8: for every state whose [gameTurns] refers to the array [prev] and
    every coordinate, [handleSelectSquare] leaves in [gameTurns] a new array
    that is the new turn followed by the elements of [prev]; the array
    [prev] was held in is another one and still has the contents [prev], as
    has every other array. *)
Theorem record_prepends_and_keeps (st : App.state) (prev : list Turn)
    (rowIndex colIndex : nat) :
  App.arrays st !! App.gameTurns st = Some prev →
  let st' := App.handleSelectSquare rowIndex colIndex st in
  App.arrays st' !! App.gameTurns st'
    = Some ({| square := {| row := rowIndex; col := colIndex |};
               player := deriveActivePlayer prev |} :: prev)
  ∧ App.gameTurns st' ≠ App.gameTurns st
  ∧ App.arrays st' !! App.gameTurns st = Some prev
  ∧ (∀ ref, ref ≠ App.gameTurns st' →
       App.arrays st' !! ref = App.arrays st !! ref).
Proof.
  intros Hprev. simpl.
  assert (fresh (dom (App.arrays st)) ≠ App.gameTurns st) as Hne.
  { intros Heq. apply (is_fresh (dom (App.arrays st))).
    rewrite Heq. by eapply elem_of_dom_2. }
  split_and!.
  - rewrite lookup_insert_eq. unfold App.deref.
    by rewrite (lookup_total_correct _ _ _ Hprev).
  - done.
  - by rewrite lookup_insert_ne.
  - intros ref Href. by rewrite lookup_insert_ne.
Qed.

Lemma record_prepends_and_keeps_witness :
  let st' := App.handleSelectSquare 1 1 App.initial in
  App.arrays st' !! App.gameTurns st'
    = Some ({| square := {| row := 1; col := 1 |};
               player := deriveActivePlayer [] |} :: [])
  ∧ App.gameTurns st' ≠ App.gameTurns App.initial
  ∧ App.arrays st' !! App.gameTurns App.initial = Some []
  ∧ (∀ ref, ref ≠ App.gameTurns st' →
       App.arrays st' !! ref = App.arrays App.initial !! ref).
Proof.
  apply (record_prepends_and_keeps App.initial [] 1 1).
  reflexivity.
Defined.

(** C9: the handler records the symbol [deriveActivePlayer] gives for the
    previous log, so the log of every state reached from the initial one
    strictly alternates symbols, beginning with "X"; no other log is
    produced. *)
Theorem reachable_logs_alternate (st : App.state) :
  App.reachable st → alternating (App.turns st).
Proof.
  induction 1 as [|rowIndex colIndex st Hst IH|symbol newName st Hst IH].
  - exact I.
  - rewrite turns_handleSelectSquare. split; [|done].
    by apply active_player_parity.
  - exact IH.
Qed.

Lemma reachable_logs_alternate_witness :
  alternating
    (App.turns (App.handleSelectSquare 0 0
                  (App.handlePlayerNameChange "X" "Max"
                     (App.handleSelectSquare 1 1 App.initial)))).
Proof.
  apply reachable_logs_alternate.
  apply App.reachable_select, App.reachable_rename, App.reachable_select,
    App.reachable_initial.
Defined.

(** ** Properties of the draw flag *)

Lemma winner_of_board st b :
  App.gameBoard st = Ok b →
  App.winner st
  = Ok (match last_line b WINNING_COMBINATIONS with
        | Some s => App.players st !! s
        | None => None
        end).
Proof.
  intros Hb. unfold App.winner. rewrite Hb. simpl.
  apply deriveWinner_last_line.
  unfold App.gameBoard in Hb. by rewrite (deriveGameBoard_length _ _ Hb).
Qed.

Lemma draw_of_board st b :
  App.gameBoard st = Ok b → App.draw st = Ok (hasDraw b).
Proof.
  intros Hb. unfold App.draw. rewrite Hb. simpl.
  rewrite deriveWinner_last_line; [done|].
  unfold App.gameBoard in Hb. by rewrite (deriveGameBoard_length _ _ Hb).
Qed.

Lemma forallb_Forall {A} (f : A → bool) (l : list A) :
  forallb f l = true ↔ Forall (λ x, f x = true) l.
Proof.
  induction l as [|x l IH]; simpl.
  - split; [constructor|done].
  - rewrite andb_true_iff, Forall_cons, IH. done.
Qed.

(** A line matches exactly when it has a symbol. *)
Lemma line_matches_symbol (b : board) (c : combination) :
  line_matches b c = false ↔ line_symbol b c = None.
Proof.
  unfold line_matches, line_symbol.
  destruct (read b (Combo.row c.1.1) _) as [v1|]; [|done].
  destruct (read b (Combo.row c.1.2) _) as [v2|]; [|by destruct v1].
  destruct (read b (Combo.row c.2) _) as [v3|]; [|by destruct v1].
  destruct v1 as [| |s]; try done.
  destruct (all_three_match (Str s) v2 v3) eqn:E.
  - apply all_three_match_Str in E. by rewrite decide_True.
  - rewrite decide_False; [done|].
    intros H. apply all_three_match_Str in H. congruence.
Qed.

(** The draw flag in the words of the specification. *)
Lemma hasDraw_full_no_line (b : board) :
  hasDraw b = true ↔ full b ∧ no_line b.
Proof.
  unfold hasDraw, full, no_line.
  rewrite andb_true_iff, !forallb_Forall.
  assert (Forall (λ line, forallb (λ cell, negb (bool_decide (cell = Null))) line = true) b
          ↔ Forall (Forall (λ v, v ≠ Null)) b) as ->.
  { apply Forall_iff. intros line. rewrite forallb_Forall.
    apply Forall_iff. intros v. rewrite negb_true_iff.
    by rewrite bool_decide_eq_false. }
  assert (Forall (λ c, negb (line_matches b c) = true) WINNING_COMBINATIONS
          ↔ Forall (λ c, line_symbol b c = None) WINNING_COMBINATIONS) as ->.
  { apply Forall_iff. intros c. rewrite negb_true_iff.
    apply line_matches_symbol. }
  done.
Qed.

(** On the board of a log of distinct grid coordinates, all cells are taken
    exactly when the log has 9 turns. *)
Lemma full_iff_nine_turns log b :
  on_grid log → NoDup (squares log) → deriveGameBoard log = Ok b →
  full b ↔ length log = 9.
Proof.
  intros Hgrid Hnd Hb.
  destruct (deriveGameBoard_shape log Hgrid Hnd) as (b' & Hb' & Hshape & Hcount).
  assert (b' = b) as -> by congruence.
  rewrite full_iff_nine by done. by rewrite Hcount.
Qed.

(** C6: for every log of distinct grid coordinates the render gives a
    board, a winner and a draw flag, and the flag is true if and only if
    all 9 cells of the board are non-empty and no line of the table
    matched. All 9 cells are non-empty exactly when the log has 9 turns;
    when the registry has a non-empty name for the symbol of every complete
    line, no line matched exactly when the winner is falsy, so that the
    flag is also "9 turns and no winner". In particular a log of 9 such
    moves whose board has no complete line fills the board and is reported
    as a draw. *)
Theorem draw_iff_full_and_no_line (st : App.state) :
  on_grid (App.turns st) → NoDup (squares (App.turns st)) →
  ∃ b w, App.gameBoard st = Ok b
    ∧ App.winner st = Ok w
    ∧ three_by_three b
    ∧ (App.draw st = Ok true ↔ full b ∧ no_line b)
    ∧ (full b ↔ length (App.turns st) = 9)
    ∧ ((∀ c s, c ∈ WINNING_COMBINATIONS → line_symbol b c = Some s →
          truthy_name (App.players st !! s) = true) →
       (no_line b ↔ truthy_name w = false)
       ∧ (App.draw st = Ok true
          ↔ length (App.turns st) = 9 ∧ truthy_name w = false))
    ∧ (length (App.turns st) = 9 → no_line b →
       full b ∧ App.draw st = Ok true).
Proof.
  intros Hgrid Hnd.
  destruct (deriveGameBoard_shape _ Hgrid Hnd) as (b & Hb & Hshape & _).
  pose proof (full_iff_nine_turns _ b Hgrid Hnd Hb) as Hfull.
  pose proof (winner_of_board st b Hb) as Hw.
  set (w := match last_line b WINNING_COMBINATIONS with
            | Some s => App.players st !! s
            | None => None
            end) in Hw.
  assert (App.draw st = Ok true ↔ full b ∧ no_line b) as Hiff.
  { rewrite (draw_of_board st b Hb), <- hasDraw_full_no_line.
    split; [by intros [= ->]|by intros ->]. }
  exists b, w. split_and!; try done.
  - intros Hnames.
    assert (no_line b ↔ truthy_name w = false) as Hline.
    { unfold no_line. rewrite <- last_line_None. subst w.
      destruct (last_line b WINNING_COMBINATIONS) as [s|] eqn:Hs; [|done].
      destruct (last_line_Some _ _ _ Hs) as (c & Hin & Hc).
      rewrite (Hnames c s Hin Hc). done. }
    split; [done|]. by rewrite Hiff, Hfull, Hline.
  - intros Hlen Hnone. split; [by apply Hfull|].
    apply Hiff. split; [by apply Hfull|done].
Qed.

Lemma draw_iff_full_and_no_line_witness :
  ∃ b w, App.gameBoard (state_of draw_log PLAYERS) = Ok b
    ∧ App.winner (state_of draw_log PLAYERS) = Ok w
    ∧ three_by_three b
    ∧ (App.draw (state_of draw_log PLAYERS) = Ok true ↔ full b ∧ no_line b)
    ∧ (full b ↔ length (App.turns (state_of draw_log PLAYERS)) = 9)
    ∧ ((∀ c s, c ∈ WINNING_COMBINATIONS → line_symbol b c = Some s →
          truthy_name (App.players (state_of draw_log PLAYERS) !! s) = true) →
       (no_line b ↔ truthy_name w = false)
       ∧ (App.draw (state_of draw_log PLAYERS) = Ok true
          ↔ length (App.turns (state_of draw_log PLAYERS)) = 9
            ∧ truthy_name w = false))
    ∧ (length (App.turns (state_of draw_log PLAYERS)) = 9 → no_line b →
       full b ∧ App.draw (state_of draw_log PLAYERS) = Ok true).
Proof.
  apply (draw_iff_full_and_no_line (state_of draw_log PLAYERS)).
  - by_compute.
  - by_compute.
Defined.

(** The nine moves of [draw_log] are reported as a draw. *)
Example draw_log_is_a_draw :
  App.draw (state_of draw_log PLAYERS) = Ok true.
Proof. reflexivity. Qed.




(** ** Errors and bounds of the board *)

Lemma for_of_place_throws (log : list Turn) : ∀ b : board,
  for_of place b log = TypeError
  ↔ Exists (λ t, length b ≤ row (square t)) log.
Proof.
  induction log as [|t log IH]; intros b; simpl.
  - split; [done|]. intros H. by apply Exists_nil in H.
  - rewrite Exists_cons. destruct (place b t) as [b1|] eqn:E; simpl.
    + rewrite IH, (place_length _ _ _ E).
      pose proof (place_row_lt _ _ _ E). split; [tauto|]. intros [?|?]; [lia|done].
    + split; [|done]. intros _. left. unfold place in E.
      destruct (b !! row (square t)) eqn:El; [done|]. by apply lookup_ge_None.
Qed.

Lemma deriveGameBoard_throws (log : list Turn) :
  deriveGameBoard log = TypeError ↔ Exists (λ t, 3 ≤ row (square t)) log.
Proof. unfold deriveGameBoard. by rewrite for_of_place_throws. Qed.

(** X1: [deriveGameBoard] throws exactly when some turn has a row index beyond
    row 2; a column index is never an error. Otherwise it returns a board
    of three rows. *)
Theorem deriveGameBoard_throws_iff (log : list Turn) :
  (deriveGameBoard log = TypeError ↔ Exists (λ t, 3 ≤ row (square t)) log)
  ∧ (deriveGameBoard log ≠ TypeError →
     ∃ b, deriveGameBoard log = Ok b ∧ length b = 3).
Proof.
  split.
  - apply deriveGameBoard_throws.
  - intros Hok. destruct (deriveGameBoard log) as [b|] eqn:E; [|done].
    exists b. split; [done|]. by eapply deriveGameBoard_length.
Qed.

Lemma deriveGameBoard_throws_iff_witness :
  ∃ b, deriveGameBoard [turn_at 0 7 "X"] = Ok b ∧ length b = 3.
Proof.
  apply (deriveGameBoard_throws_iff [turn_at 0 7 "X"]). discriminate.
Defined.

Lemma square_eq_iff (t : Turn) (r c : nat) :
  square t = {| row := r; col := c |} ↔ r = row (square t) ∧ c = col (square t).
Proof.
  destruct (square t) as [r' c']. simpl. split.
  - by intros [= -> ->].
  - by intros [-> ->].
Qed.

Lemma read_for_of_oldest (log : list Turn) (r c : nat) : ∀ b b' : board,
  for_of place b log = Ok b' →
  read b' r c =
    match oldest_at log {| row := r; col := c |} with
    | Some p => Ok (Str p)
    | None => read b r c
    end.
Proof.
  induction log as [|t log IH]; simpl; intros b b' Hfor.
  - congruence.
  - destruct (place b t) as [b1|] eqn:E1; simpl in Hfor; [|done].
    rewrite (IH _ _ Hfor).
    destruct (oldest_at log _); [done|].
    rewrite (read_place _ _ _ _ _ E1).
    destruct (decide (square t = _)) as [Heq|Hne].
    + apply square_eq_iff in Heq. by rewrite decide_True.
    + rewrite decide_False; [done|]. by rewrite <- square_eq_iff.
Qed.

(** X2: What every cell of the derived board holds, whatever the log: the
    symbol of the oldest turn at that coordinate when there is one, [null]
    on the untouched cells of the grid, and [undefined] beyond column 2
    (where a row grew to take a turn further out). *)
Theorem deriveGameBoard_cells (log : list Turn) (b : board) (r c : nat) :
  deriveGameBoard log = Ok b → r < 3 →
  read b r c =
    Ok (match oldest_at log {| row := r; col := c |} with
        | Some p => Str p
        | None => if decide (c < 3) then Null else Undefined
        end).
Proof.
  intros Hb Hr. unfold deriveGameBoard in Hb.
  rewrite (read_for_of_oldest _ r c _ _ Hb).
  destruct (oldest_at log _); [done|].
  destruct r as [|[|[|]]]; [| | |lia];
    destruct c as [|[|[|]]]; done.
Qed.

Lemma deriveGameBoard_cells_witness :
  read [ [Str "X"; Null; Null; Undefined; Str "O"]; [Null; Null; Null]; [Null; Null; Null] ] 0 3
  = Ok (match oldest_at [turn_at 0 4 "O"; turn_at 0 0 "O"; turn_at 0 0 "X"]
                {| row := 0; col := 3 |} with
        | Some p => Str p
        | None => if decide (3 < 3) then Null else Undefined
        end).
Proof.
  apply (deriveGameBoard_cells [turn_at 0 4 "O"; turn_at 0 0 "O"; turn_at 0 0 "X"]).
  - reflexivity.
  - lia.
Defined.

(** ** Selecting a square, seen on the board *)

Lemma array_set_twice (arr : list value) (i : nat) (v w : value) :
  array_set (array_set arr i v) i w = array_set arr i w.
Proof.
  apply list_eq. intros k.
  rewrite !array_set_lookup, !array_set_length.
  repeat case_decide; try done; try lia.
Qed.

Lemma place_twice (b : board) (t1 t2 : Turn) :
  square t1 = square t2 →
  (b1 ← place b t1; place b1 t2) = place b t2.
Proof.
  intros Heq. unfold place. rewrite Heq.
  destruct (b !! row (square t2)) as [line|] eqn:E; simpl; [|done].
  rewrite list_lookup_insert_eq by (by eapply lookup_lt_Some).
  by rewrite list_insert_insert_eq, array_set_twice.
Qed.

Lemma for_of_snoc (b : board) (log : list Turn) (t : Turn) :
  for_of place b (log ++ [t]) = (b' ← for_of place b log; place b' t).
Proof.
  revert b. induction log as [|t' log IH]; simpl; intros b.
  - by destruct (place b t).
  - destruct (place b t'); simpl; [apply IH|done].
Qed.

(** A turn replayed first on a square no other turn touches can as well be
    replayed last. *)
Lemma for_of_place_front (log : list Turn) (t : Turn) : ∀ b : board,
  square t ∉ squares log →
  for_of place b (t :: log) = (b' ← for_of place b log; place b' t).
Proof.
  induction log as [|t' log IH]; intros b Hnin.
  - simpl. by destruct (place b t).
  - apply not_elem_of_cons in Hnin as [Hne Hnin].
    pose proof (place_comm b t t' Hne) as Hc. simpl.
    destruct (place b t) as [b1|], (place b t') as [b1'|]; simpl in *.
    + rewrite Hc. apply (IH b1' Hnin).
    + by rewrite Hc.
    + rewrite <- (IH b1' Hnin). simpl. by rewrite <- Hc.
    + done.
Qed.

(** A turn replayed first on a square a later turn of the replay touches
    leaves no trace. *)
Lemma for_of_place_absorbed (log : list Turn) (t : Turn) : ∀ b : board,
  square t ∈ squares log →
  for_of place b (t :: log) = for_of place b log.
Proof.
  induction log as [|t' log IH]; intros b Hin.
  - by apply elem_of_nil in Hin.
  - simpl. destruct (decide (square t = square t')) as [Heq|Hne].
    + pose proof (place_twice b t t' Heq) as Htw.
      destruct (place b t) as [b1|]; simpl in *; [by rewrite Htw|by rewrite <- Htw].
    + pose proof (place_comm b t t' Hne) as Hc.
      apply elem_of_cons in Hin as [?|Hin]; [done|].
      destruct (place b t) as [b1|], (place b t') as [b1'|]; simpl in *.
      * rewrite Hc. apply (IH b1' Hin).
      * by rewrite Hc.
      * rewrite <- (IH b1' Hin). simpl. by rewrite <- Hc.
      * done.
Qed.

(** X4: Selecting a square no turn of the log is on changes the board by this
    one cell: the new board is the previous one with the symbol of the
    active player written at that square. *)
Theorem select_free_square (st : App.state) (rowIndex colIndex : nat) :
  {| row := rowIndex; col := colIndex |} ∉ squares (App.turns st) →
  App.gameBoard (App.handleSelectSquare rowIndex colIndex st)
  = (b ← App.gameBoard st;
     place b {| square := {| row := rowIndex; col := colIndex |};
                player := App.activePlayer st |}).
Proof.
  intros Hfree. unfold App.gameBoard. rewrite turns_handleSelectSquare.
  unfold deriveGameBoard. by rewrite for_of_place_front.
Qed.

Lemma select_free_square_witness :
  App.gameBoard (App.handleSelectSquare 1 1 App.initial)
  = (b ← App.gameBoard App.initial;
     place b {| square := {| row := 1; col := 1 |};
                player := App.activePlayer App.initial |}).
Proof.
  apply (select_free_square App.initial 1 1).
  apply not_elem_of_nil.
Defined.

Lemma deriveActivePlayer_X_or_O (log : list Turn) :
  deriveActivePlayer log = "X" ∨ deriveActivePlayer log = "O".
Proof.
  destruct log as [|t log]; simpl; [by left|].
  destruct (String.eqb (player t) "X"); [by right|by left].
Qed.

Lemma activePlayer_passes (st : App.state) (rowIndex colIndex : nat) :
  App.activePlayer (App.handleSelectSquare rowIndex colIndex st)
  ≠ App.activePlayer st.
Proof.
  unfold App.activePlayer. rewrite turns_handleSelectSquare. simpl.
  destruct (deriveActivePlayer_X_or_O (App.turns st)) as [-> | ->]; done.
Qed.

(** X5: Selecting a square a turn of the log is already on (the handler does
    not refuse it) leaves the board as it was: the new turn is replayed
    first and overwritten. The log still grows by that turn and the turn
    passes to the other player. *)
Theorem select_taken_square (st : App.state) (rowIndex colIndex : nat) :
  {| row := rowIndex; col := colIndex |} ∈ squares (App.turns st) →
  App.gameBoard (App.handleSelectSquare rowIndex colIndex st) = App.gameBoard st
  ∧ length (App.turns (App.handleSelectSquare rowIndex colIndex st))
    = S (length (App.turns st))
  ∧ App.activePlayer (App.handleSelectSquare rowIndex colIndex st)
    ≠ App.activePlayer st.
Proof.
  intros Htaken. split_and!.
  - unfold App.gameBoard. rewrite turns_handleSelectSquare.
    unfold deriveGameBoard. by rewrite for_of_place_absorbed.
  - by rewrite turns_handleSelectSquare.
  - apply activePlayer_passes.
Qed.

Lemma select_taken_square_witness :
  App.gameBoard (App.handleSelectSquare 1 1 (App.handleSelectSquare 1 1 App.initial))
  = App.gameBoard (App.handleSelectSquare 1 1 App.initial)
  ∧ length (App.turns (App.handleSelectSquare 1 1 (App.handleSelectSquare 1 1 App.initial)))
    = S (length (App.turns (App.handleSelectSquare 1 1 App.initial)))
  ∧ App.activePlayer (App.handleSelectSquare 1 1 (App.handleSelectSquare 1 1 App.initial))
    ≠ App.activePlayer (App.handleSelectSquare 1 1 App.initial).
Proof.
  apply (select_taken_square (App.handleSelectSquare 1 1 App.initial) 1 1).
  rewrite turns_handleSelectSquare. by left.
Defined.

(** X6: Whatever the log holds, also symbols other than "X" and "O", the active
    player is "X" or "O" and never the symbol of the most recent turn; so
    every selection passes the turn. *)
Theorem activePlayer_never_repeats (st : App.state) (rowIndex colIndex : nat) :
  (App.activePlayer st = "X" ∨ App.activePlayer st = "O")
  ∧ (∀ t older, App.turns st = t :: older → App.activePlayer st ≠ player t)
  ∧ App.activePlayer (App.handleSelectSquare rowIndex colIndex st)
    ≠ App.activePlayer st.
Proof.
  split_and!.
  - apply deriveActivePlayer_X_or_O.
  - intros t older Hlog. unfold App.activePlayer. rewrite Hlog. simpl.
    destruct (String.eqb (player t) "X") eqn:E.
    + apply String.eqb_eq in E. by rewrite E.
    + apply String.eqb_neq in E. congruence.
  - apply activePlayer_passes.
Qed.

(** ** Errors and soundness of the winner *)

Lemma check_combination_either (b : board) (p : gmap string string)
    (w : option string) (c : combination) (v1 v2 v3 : value) :
  read b (Combo.row c.1.1) (Combo.column c.1.1) = Ok v1 →
  read b (Combo.row c.1.2) (Combo.column c.1.2) = Ok v2 →
  read b (Combo.row c.2) (Combo.column c.2) = Ok v3 →
  ∃ w', check_combination b p w c = Ok w'.
Proof.
  intros H1 H2 H3. unfold check_combination. rewrite H1, H2, H3. simpl.
  destruct (all_three_match v1 v2 v3); eauto.
Qed.

Lemma deriveWinner_throws (b : board) (p : gmap string string) :
  deriveWinner b p = TypeError ↔ length b < 3.
Proof.
  split.
  - intros Hthrow. destruct (decide (length b < 3)) as [|Hge]; [done|].
    rewrite deriveWinner_last_line in Hthrow by lia. done.
  - intros Hlen. unfold deriveWinner, WINNING_COMBINATIONS.
    destruct b as [|l0 [|l1 [|l2 b]]]; simpl in Hlen; [done| | |lia].
    + cbn [for_of].
      destruct (check_combination_either [l0] p None
                  (Combo.Build_cell 0 0, Combo.Build_cell 0 1, Combo.Build_cell 0 2)
                  (array_get l0 0) (array_get l0 1) (array_get l0 2))
        as [w0 ->]; done.
    + cbn [for_of].
      destruct (check_combination_either [l0; l1] p None
                  (Combo.Build_cell 0 0, Combo.Build_cell 0 1, Combo.Build_cell 0 2)
                  (array_get l0 0) (array_get l0 1) (array_get l0 2))
        as [w0 ->]; [done..|]. simpl.
      destruct (check_combination_either [l0; l1] p w0
                  (Combo.Build_cell 1 0, Combo.Build_cell 1 1, Combo.Build_cell 1 2)
                  (array_get l1 0) (array_get l1 1) (array_get l1 2))
        as [w1 ->]; done.
Qed.

(** X7: [deriveWinner] throws exactly on a board with fewer than three rows
    (rows that are too short only read as [undefined]), so never on a board
    that [deriveGameBoard] returned. *)
Theorem deriveWinner_throws_iff (b : board) (p : gmap string string) :
  (deriveWinner b p = TypeError ↔ length b < 3)
  ∧ (∀ log, deriveGameBoard log = Ok b → ∃ w, deriveWinner b p = Ok w).
Proof.
  split; [apply deriveWinner_throws|].
  intros log Hb. destruct (deriveWinner b p) as [w|] eqn:E; [eauto|].
  apply deriveWinner_throws in E. rewrite (deriveGameBoard_length _ _ Hb) in E. lia.
Qed.

(** X8: The render of the component, which derives the board, the winner and
    the draw flag, throws exactly when some turn of the log has a row index
    beyond row 2. *)
Theorem render_throws_iff (st : App.state) :
  (App.draw st = TypeError ↔ Exists (λ t, 3 ≤ row (square t)) (App.turns st))
  ∧ (App.winner st = TypeError ↔ Exists (λ t, 3 ≤ row (square t)) (App.turns st)).
Proof.
  assert (App.winner st = TypeError
          ↔ Exists (λ t, 3 ≤ row (square t)) (App.turns st)) as Hw.
  { unfold App.winner, App.gameBoard.
    rewrite <- deriveGameBoard_throws.
    destruct (deriveGameBoard (App.turns st)) as [b|] eqn:E; simpl; [|done].
    rewrite deriveWinner_throws, (deriveGameBoard_length _ _ E).
    split; [lia|done]. }
  split; [|done].
  rewrite <- Hw. unfold App.draw, App.winner.
  destruct (App.gameBoard st) as [b|]; simpl; [|done].
  destruct (deriveWinner b (App.players st)); simpl; done.
Qed.

Lemma line_symbol_Some (b : board) (c : combination) (s : string) :
  line_symbol b c = Some s →
  s ≠ ""
  ∧ read b (Combo.row c.1.1) (Combo.column c.1.1) = Ok (Str s)
  ∧ read b (Combo.row c.1.2) (Combo.column c.1.2) = Ok (Str s)
  ∧ read b (Combo.row c.2) (Combo.column c.2) = Ok (Str s).
Proof.
  unfold line_symbol.
  destruct (read b (Combo.row c.1.1) _) as [[| |s1]|]; try done.
  destruct (read b (Combo.row c.1.2) _) as [v2|]; try done.
  destruct (read b (Combo.row c.2) _) as [v3|]; try done.
  case_decide as H; [|done]. intros [= <-].
  destruct H as (? & -> & ->). done.
Qed.

(** X9: A name is returned only for a line that is there: when [deriveWinner]
    returns a name, some line of the table has the same non-empty string
    in its three cells and the name is the registry's entry for it; three
    [null], [undefined] or empty cells never count. When no line is
    complete it returns [undefined]. *)
Theorem deriveWinner_sound (b : board) (p : gmap string string) :
  3 ≤ length b →
  (∀ name, deriveWinner b p = Ok (Some name) →
     ∃ c s, c ∈ WINNING_COMBINATIONS
       ∧ s ≠ ""
       ∧ p !! s = Some name
       ∧ read b (Combo.row c.1.1) (Combo.column c.1.1) = Ok (Str s)
       ∧ read b (Combo.row c.1.2) (Combo.column c.1.2) = Ok (Str s)
       ∧ read b (Combo.row c.2) (Combo.column c.2) = Ok (Str s))
  ∧ (no_line b → deriveWinner b p = Ok None).
Proof.
  intros Hb. rewrite deriveWinner_last_line by done. split.
  - intros name Hname.
    destruct (last_line b WINNING_COMBINATIONS) as [s|] eqn:Hs; [|done].
    destruct (last_line_Some _ _ _ Hs) as (c & Hin & Hc).
    destruct (line_symbol_Some _ _ _ Hc) as (? & ? & ? & ?).
    exists c, s. split_and!; try done. congruence.
  - intros Hnone. apply last_line_None in Hnone. by rewrite Hnone.
Qed.

Lemma deriveWinner_sound_witness :
  (∀ name, deriveWinner two_lines_board PLAYERS = Ok (Some name) →
     ∃ c s, c ∈ WINNING_COMBINATIONS
       ∧ s ≠ ""
       ∧ PLAYERS !! s = Some name
       ∧ read two_lines_board (Combo.row c.1.1) (Combo.column c.1.1) = Ok (Str s)
       ∧ read two_lines_board (Combo.row c.1.2) (Combo.column c.1.2) = Ok (Str s)
       ∧ read two_lines_board (Combo.row c.2) (Combo.column c.2) = Ok (Str s))
  ∧ (no_line two_lines_board → deriveWinner two_lines_board PLAYERS = Ok None).
Proof.
  apply (deriveWinner_sound two_lines_board PLAYERS). simpl. lia.
Defined.

(** ** Play through the rendered board *)

Lemma oldest_at_None (log : list Turn) (sq : Square) :
  oldest_at log sq = None ↔ sq ∉ squares log.
Proof.
  induction log as [|t log IH]; simpl.
  - split; [intros _; apply not_elem_of_nil|done].
  - rewrite not_elem_of_cons. destruct (oldest_at log sq).
    + split; [done|]. intros [_ H]. by apply IH in H.
    + case_decide; split; try done.
      * intros [? _]. congruence.
      * intros _. split; [congruence|by apply IH].
Qed.

Lemma enabled_read (b : board) (r c : nat) :
  GameBoard.enabled b r c = true ↔ read b r c = Ok Null.
Proof.
  unfold GameBoard.enabled, read, array_get.
  destruct (b !! r) as [line|]; [|done].
  destruct (line !! c) as [v|]; simpl.
  - rewrite bool_decide_eq_true. split; congruence.
  - done.
Qed.

(** X10: The buttons that can be clicked are exactly those of the squares of the
    grid on which no turn of the log is; squares of a row that grew are
    never offered. *)
Theorem enabled_iff_free (log : list Turn) (b : board) (r c : nat) :
  deriveGameBoard log = Ok b →
  (GameBoard.enabled b r c = true
   ↔ r < 3 ∧ c < 3 ∧ {| row := r; col := c |} ∉ squares log).
Proof.
  intros Hb. rewrite enabled_read.
  destruct (decide (r < 3)) as [Hr|Hr].
  - unfold deriveGameBoard in Hb. rewrite (read_for_of_oldest _ r c _ _ Hb).
    rewrite <- oldest_at_None.
    destruct (oldest_at log _) as [p|].
    + split; [done|]. by intros (_ & _ & ?).
    + destruct r as [|[|[|]]]; [| | |lia];
        (destruct c as [|[|[|]]]; simpl;
         [split; [intros _; split_and!; [lia|lia|done] | done] ..
         | split; [done | intros (_ & ? & _); lia]]).
  - split; [|intros (? & _); lia].
    unfold read. rewrite (proj2 (lookup_ge_None b r)); [done|].
    rewrite (deriveGameBoard_length _ _ Hb). lia.
Qed.

Lemma enabled_iff_free_witness :
  GameBoard.enabled
    [ [Str "X"; Str "X"; Str "X"]; [Null; Str "O"; Null]; [Str "O"; Null; Null] ] 1 0
  = true
  ↔ 1 < 3 ∧ 0 < 3 ∧ {| row := 1; col := 0 |} ∉ squares row0_log.
Proof.
  apply (enabled_iff_free row0_log). reflexivity.
Defined.

Lemma played_invariant (st : App.state) :
  played st →
  on_grid (App.turns st) ∧ NoDup (squares (App.turns st)) ∧ alternating (App.turns st).
Proof.
  induction 1 as [|r c st b Hst IH Hb Hen|symbol newName st Hst IH].
  - split_and!; [constructor|constructor|exact I].
  - destruct IH as (Hgrid & Hnd & Halt).
    unfold App.gameBoard in Hb.
    assert (r < 3 ∧ c < 3 ∧ {| row := r; col := c |} ∉ squares (App.turns st))
      as (Hr & Hc & Hfree).
    { apply enabled_read in Hen.
      destruct (decide (r < 3)) as [Hr|Hr].
      - unfold deriveGameBoard in Hb.
        rewrite (read_for_of_oldest _ r c _ _ Hb) in Hen.
        destruct (oldest_at (App.turns st) _) as [p|] eqn:Hold; [done|].
        apply oldest_at_None in Hold. split_and!; [done| |done].
        destruct (decide (c < 3)) as [|Hc]; [done|]. exfalso.
        destruct r as [|[|[|]]]; [| | |lia];
          (destruct c as [|[|[|]]]; [lia..|done]).
      - exfalso. unfold read in Hen.
        rewrite (proj2 (lookup_ge_None b r)) in Hen; [done|].
        rewrite (deriveGameBoard_length _ _ Hb). lia. }
    rewrite turns_handleSelectSquare. split_and!.
    + by constructor.
    + unfold squares. rewrite fmap_cons. by constructor.
    + split; [by apply active_player_parity|done].
  - exact IH.
Qed.

(** X11: However the game is played through the board it renders, the log holds
    distinct coordinates of the grid, alternating symbols from "X", and at
    most 9 turns; the render does not throw, and the board is a 3×3 grid
    with as many taken cells as turns. *)
Theorem played_logs_are_well_formed (st : App.state) :
  played st →
  on_grid (App.turns st)
  ∧ NoDup (squares (App.turns st))
  ∧ alternating (App.turns st)
  ∧ length (App.turns st) ≤ 9
  ∧ ∃ b, App.gameBoard st = Ok b
         ∧ three_by_three b
         ∧ non_empty_cells b = length (App.turns st).
Proof.
  intros Hst. destruct (played_invariant st Hst) as (Hgrid & Hnd & Halt).
  destruct (deriveGameBoard_shape _ Hgrid Hnd) as (b & Hb & Hshape & Hcount).
  split_and!; try done.
  - rewrite <- Hcount. unfold non_empty_cells.
    rewrite <- (three_by_three_cells b Hshape). apply length_filter.
  - by exists b.
Qed.

Lemma played_logs_are_well_formed_witness :
  on_grid (App.turns (App.handleSelectSquare 1 1 App.initial))
  ∧ NoDup (squares (App.turns (App.handleSelectSquare 1 1 App.initial)))
  ∧ alternating (App.turns (App.handleSelectSquare 1 1 App.initial))
  ∧ length (App.turns (App.handleSelectSquare 1 1 App.initial)) ≤ 9
  ∧ ∃ b, App.gameBoard (App.handleSelectSquare 1 1 App.initial) = Ok b
         ∧ three_by_three b
         ∧ non_empty_cells b = length (App.turns (App.handleSelectSquare 1 1 App.initial)).
Proof.
  apply (played_logs_are_well_formed (App.handleSelectSquare 1 1 App.initial)).
  apply (played_click 1 1 App.initial INITIAL_GAME_BOARD).
  - apply played_initial.
  - reflexivity.
  - reflexivity.
Defined.

Lemma key_injective_on_grid (sq1 sq2 : Square) :
  row sq1 < 3 → col sq1 < 3 → row sq2 < 3 → col sq2 < 3 →
  pretty (row sq1) +:+ pretty (col sq1) = pretty (row sq2) +:+ pretty (col sq2) →
  sq1 = sq2.
Proof.
  destruct sq1 as [r1 c1], sq2 as [r2 c2]. simpl. intros Hr1 Hc1 Hr2 Hc2.
  destruct r1 as [|[|[|]]]; [| | |lia];
    destruct c1 as [|[|[|]]]; try lia;
    destruct r2 as [|[|[|]]]; try lia;
    destruct c2 as [|[|[|]]]; try lia;
    vm_compute; intros H; first [reflexivity | discriminate H].
Qed.

(** X12: The keys of the entries of the log are pairwise distinct when the log
    holds distinct coordinates of the grid, as every log played through the
    board does. *)
Theorem log_keys_unique (log : list Turn) :
  on_grid log → NoDup (squares log) →
  NoDup (Log.key <$> log).
Proof.
  intros Hgrid Hnd.
  replace (Log.key <$> log)
    with ((λ sq, pretty (row sq) +:+ pretty (col sq)) <$> squares log)
    by (unfold squares; by rewrite <- list_fmap_compose).
  apply NoDup_fmap_2_strong; [|done].
  intros sq1 sq2 H1 H2 Hkey.
  unfold squares in H1, H2.
  apply list_elem_of_fmap in H1 as (t1 & -> & Ht1).
  apply list_elem_of_fmap in H2 as (t2 & -> & Ht2).
  unfold on_grid in Hgrid. rewrite Forall_forall in Hgrid.
  destruct (Hgrid t1 Ht1), (Hgrid t2 Ht2).
  by apply key_injective_on_grid.
Qed.

Lemma log_keys_unique_witness :
  NoDup (Log.key <$> row0_log).
Proof.
  apply (log_keys_unique row0_log); by_compute.
Defined.

(** Off the grid two different coordinates can have the same key. *)
Example log_keys_collide_off_grid :
  Log.key (turn_at 1 11 "X") = Log.key (turn_at 11 1 "O").
Proof. reflexivity. Qed.

(** ** Names: the player components and the registry *)




(** X14: Edit, type a name, Save: the registry then holds the typed name for
    that symbol and what it held for every other symbol, and the log, hence
    the board and the active player, are those of before. *)
Theorem edit_type_save (symbol value : string) (st : Player.state) (parent : App.state) :
  Player.isEditing st = false →
  let '(st1, parent1) := Player.handleEditClick symbol st parent in
  let st2 := Player.handleChange value st1 in
  let '(st3, parent3) := Player.handleEditClick symbol st2 parent1 in
  parent1 = parent
  ∧ Player.isEditing st3 = false
  ∧ Player.playerName st3 = value
  ∧ App.players parent3 !! symbol = Some value
  ∧ (∀ other, other ≠ symbol →
       App.players parent3 !! other = App.players parent !! other)
  ∧ App.turns parent3 = App.turns parent.
Proof.
  intros Hnot. unfold Player.handleEditClick. rewrite Hnot. simpl.
  split_and!; try done.
  - apply lookup_insert_eq.
  - intros other Hne. by rewrite lookup_insert_ne.
Qed.

Lemma edit_type_save_witness :
  let '(st1, parent1) := Player.handleEditClick "O" (Player.initial "Player 2") App.initial in
  let st2 := Player.handleChange "Anna" st1 in
  let '(st3, parent3) := Player.handleEditClick "O" st2 parent1 in
  parent1 = App.initial
  ∧ Player.isEditing st3 = false
  ∧ Player.playerName st3 = "Anna"
  ∧ App.players parent3 !! "O" = Some "Anna"
  ∧ (∀ other, other ≠ "O" →
       App.players parent3 !! other = App.players App.initial !! other)
  ∧ App.turns parent3 = App.turns App.initial.
Proof.
  apply (edit_type_save "O" "Anna" (Player.initial "Player 2") App.initial).
  reflexivity.
Defined.

(** ** The board in the store: fresh arrays, the template untouched *)

Section heap.
Implicit Types (h : gmap positive (list value)) (outer refs : list positive).

Lemma contents_insert_other h outer ref (line : list value) :
  ref ∉ outer → Heap.contents (<[ref := line]> h) outer = Heap.contents h outer.
Proof.
  intros Hnin. unfold Heap.contents. apply list_fmap_ext.
  intros i a Ha. rewrite lookup_total_insert_ne; [done|].
  intros ->. apply Hnin. by eapply list_elem_of_lookup_2.
Qed.

Lemma contents_insert_row h refs ref i (line : list value) :
  NoDup refs → refs !! i = Some ref →
  Heap.contents (<[ref := line]> h) refs = <[i := line]> (Heap.contents h refs).
Proof.
  intros Hnd Hi. unfold Heap.contents. apply list_eq. intros j.
  destruct (decide (j = i)) as [->|Hne].
  - rewrite list_lookup_insert_eq
      by (rewrite length_fmap; by eapply lookup_lt_Some).
    rewrite list_lookup_fmap, Hi. simpl. by rewrite lookup_total_insert_eq.
  - rewrite list_lookup_insert_ne by done. rewrite !list_lookup_fmap.
    destruct (refs !! j) as [a|] eqn:Hj; simpl; [|done].
    rewrite lookup_total_insert_ne; [done|].
    intros ->. apply Hne. symmetry. by eapply NoDup_lookup.
Qed.

(** The copy of the rows: new, distinct arrays with the same cells. *)
Lemma map_spread_spec outer : ∀ h,
  Forall (λ a, a ∈ dom h) outer →
  (∀ ref, ref ∈ dom h → (fst (Heap.map_spread h outer)) !! ref = h !! ref)
  ∧ dom h ⊆ dom (fst (Heap.map_spread h outer))
  ∧ NoDup (snd (Heap.map_spread h outer))
  ∧ (∀ ref, ref ∈ (snd (Heap.map_spread h outer)) →
       (ref ∉ dom h) ∧ (ref ∈ dom (fst (Heap.map_spread h outer))))
  ∧ Heap.contents (fst (Heap.map_spread h outer)) (snd (Heap.map_spread h outer))
    = Heap.contents h outer.
Proof.
  induction outer as [|a outer IH]; intros h Hall; simpl.
  - split_and!; try done. { constructor. } intros ref Href. by apply elem_of_nil in Href.
  - apply Forall_cons in Hall as [Ha Hall].
    set (ref := fresh (dom h)).
    assert (ref ∉ dom h) as Hfresh by apply is_fresh.
    set (h1 := <[ref := h !!! a]> h).
    assert (dom h ⊆ dom h1) as Hsub
      by (unfold h1; rewrite dom_insert_L; apply union_subseteq_r).
    destruct (IH h1) as (Hframe & Hdom & Hnd & Hnew & Hcont).
    { eapply Forall_impl; [exact Hall|]. simpl. intros a' Ha'. by apply Hsub. }
    destruct (Heap.map_spread h1 outer) as [h2 refs] eqn:E. simpl in *.
    assert (ref ∈ dom h1) as Hin1
      by (unfold h1; rewrite dom_insert_L; by apply elem_of_union_l, elem_of_singleton).
    split_and!.
    + intros r Hr. rewrite Hframe by (by apply Hsub).
      unfold h1. rewrite lookup_insert_ne; [done|]. intros ->. done.
    + by etrans.
    + constructor; [|done]. intros Hin. by apply Hnew in Hin as [? _].
    + intros r Hr. apply elem_of_cons in Hr as [->|Hr].
      * split; [done|]. by apply Hdom.
      * destruct (Hnew r Hr) as [Hn1 Hn2]. split; [|done].
        intros Hd. apply Hn1. by apply Hsub.
    + unfold Heap.contents in *. simpl. f_equal.
      * rewrite (lookup_total_alt h2), Hframe by done.
        rewrite <- lookup_total_alt. unfold h1. by rewrite lookup_total_insert_eq.
      * rewrite Hcont. apply list_fmap_ext. intros i a' Ha'.
        unfold h1. rewrite lookup_total_insert_ne; [done|].
        intros ->. apply Hfresh. rewrite Forall_forall in Hall.
        apply Hall. by eapply list_elem_of_lookup_2.
Qed.

(** One write in the store and on values. *)
Lemma place_in_store h refs (t : Turn) :
  NoDup refs →
  (∀ ref, ref ∉ refs → fst (Heap.place h refs t) !! ref = h !! ref)
  ∧ place (Heap.contents h refs) t
    = match snd (Heap.place h refs t) with
      | Ok _ => Ok (Heap.contents (fst (Heap.place h refs t)) refs)
      | TypeError => TypeError
      end.
Proof.
  intros Hnd. unfold Heap.place, place.
  assert (Heap.contents h refs !! row (square t)
          = (λ ref, h !!! ref) <$> refs !! row (square t)) as ->
    by apply list_lookup_fmap.
  destruct (refs !! row (square t)) as [ref|] eqn:Hrow; simpl; [|done].
  split.
  - intros r Hr. rewrite lookup_insert_ne; [done|].
    intros ->. apply Hr. by eapply list_elem_of_lookup_2.
  - by rewrite (contents_insert_row _ _ _ _ _ Hnd Hrow).
Qed.

(** The loop in the store does to the rows of the board what the loop on
    values does, and writes to no other array. *)
Lemma replay_spec gameTurns : ∀ h refs,
  NoDup refs →
  (∀ ref, ref ∉ refs → fst (Heap.replay h refs gameTurns) !! ref = h !! ref)
  ∧ for_of place (Heap.contents h refs) gameTurns
    = match snd (Heap.replay h refs gameTurns) with
      | Ok _ => Ok (Heap.contents (fst (Heap.replay h refs gameTurns)) refs)
      | TypeError => TypeError
      end.
Proof.
  induction gameTurns as [|t gameTurns IH]; intros h refs Hnd; simpl.
  - done.
  - destruct (place_in_store h refs t Hnd) as [Hf Hp]. rewrite Hp.
    destruct (Heap.place h refs t) as [h1 [[]|]]; simpl in *.
    + destruct (IH h1 refs Hnd) as [Hframe Hres]. split; [|exact Hres].
      intros r Hr. rewrite Hframe by done. by apply Hf.
    + done.
Qed.

Lemma template_allocated h template :
  Heap.contents h template = INITIAL_GAME_BOARD →
  Forall (λ a, a ∈ dom h) template.
Proof.
  intros Hcont. apply Forall_forall. intros a Ha.
  apply list_elem_of_lookup in Ha as [i Hi].
  assert (Heap.contents h template !! i = Some (h !!! a)) as Hrow.
  { unfold Heap.contents. by rewrite list_lookup_fmap, Hi. }
  rewrite Hcont in Hrow.
  apply elem_of_dom. rewrite lookup_total_alt in Hrow.
  destruct (h !! a) as [line|]; [done|]. simpl in Hrow.
  destruct i as [|[|[|]]]; done.
Qed.
End heap.

(** X3: [deriveGameBoard], run in a store that holds the template rows: it
    returns arrays that were not there before, writes to no array that was
    (so the template and every board derived earlier keep their cells), and
    the cells of its board are those the function on values computes; it
    throws when that one does. *)
Theorem deriveGameBoard_in_store (h : gmap positive (list value))
    (template : list positive) (gameTurns : list Turn) :
  Heap.contents h template = INITIAL_GAME_BOARD →
  (∀ ref, ref ∈ dom h →
     (fst (Heap.deriveGameBoard h template gameTurns)) !! ref = h !! ref)
  ∧ Heap.contents (fst (Heap.deriveGameBoard h template gameTurns)) template
    = INITIAL_GAME_BOARD
  ∧ match (snd (Heap.deriveGameBoard h template gameTurns)) with
    | Ok gameBoard =>
        (∀ ref, ref ∈ gameBoard → ref ∉ dom h)
        ∧ deriveGameBoard gameTurns
          = Ok (Heap.contents (fst (Heap.deriveGameBoard h template gameTurns)) gameBoard)
    | TypeError => deriveGameBoard gameTurns = TypeError
    end.
Proof.
  intros Htemplate.
  pose proof (template_allocated _ _ Htemplate) as Halloc.
  destruct (map_spread_spec template h Halloc) as (Hframe1 & Hdom1 & Hnd & Hnew & Hcont).
  unfold Heap.deriveGameBoard.
  destruct (Heap.map_spread h template) as [h1 gameBoard] eqn:E1. simpl in *.
  destruct (replay_spec gameTurns h1 gameBoard Hnd) as [Hframe2 Hres].
  destruct (Heap.replay h1 gameBoard gameTurns) as [h2 r] eqn:E2. simpl in *.
  assert (∀ ref, ref ∈ dom h → h2 !! ref = h !! ref) as Hframe.
  { intros ref Href. rewrite Hframe2; [by apply Hframe1|].
    intros Hin. by apply Hnew in Hin as [? _]. }
  split_and!.
  - done.
  - rewrite <- Htemplate. unfold Heap.contents. apply list_fmap_ext.
    intros i a Ha. rewrite !lookup_total_alt, Hframe; [done|].
    rewrite Forall_forall in Halloc. apply Halloc. by eapply list_elem_of_lookup_2.
  - rewrite Hcont, Htemplate in Hres. destruct r as [[]|]; [|done].
    split; [|done]. intros ref Href. by apply Hnew in Href as [? _].
Qed.

Lemma deriveGameBoard_in_store_witness :
  let h : gmap positive (list value) :=
    <[1%positive := [Null; Null; Null]]>
      (<[2%positive := [Null; Null; Null]]>
         (<[3%positive := [Null; Null; Null]]> ∅)) in
  let template := [1%positive; 2%positive; 3%positive] in
  (∀ ref, ref ∈ dom h →
     (fst (Heap.deriveGameBoard h template row0_log)) !! ref = h !! ref)
  ∧ Heap.contents (fst (Heap.deriveGameBoard h template row0_log)) template
    = INITIAL_GAME_BOARD
  ∧ match (snd (Heap.deriveGameBoard h template row0_log)) with
    | Ok gameBoard =>
        (∀ ref, ref ∈ gameBoard → ref ∉ dom h)
        ∧ deriveGameBoard row0_log
          = Ok (Heap.contents (fst (Heap.deriveGameBoard h template row0_log)) gameBoard)
    | TypeError => deriveGameBoard row0_log = TypeError
    end.
Proof.
  cbv zeta. apply deriveGameBoard_in_store. reflexivity.
Defined.

(** Without the copy of the rows the write goes to the template: after
    [gameBoard[row][col] = player] through the template's own rows (or
    through a copy of the outer array only), the template holds the symbol. *)
Example shallow_copy_writes_template :
  let h : gmap positive (list value) :=
    <[1%positive := [Null; Null; Null]]>
      (<[2%positive := [Null; Null; Null]]>
         (<[3%positive := [Null; Null; Null]]> ∅)) in
  let template := [1%positive; 2%positive; 3%positive] in
  Heap.contents (Heap.place h template (turn_at 0 0 "X")).1 template
  = [ [Str "X"; Null; Null]; [Null; Null; Null]; [Null; Null; Null] ].
Proof. reflexivity. Qed.

(** ** The timer challenge *)

Section timer.
Local Open Scope Z_scope.
Implicit Types (targetTime : Z) (st : Timer.state) (k : nat).

Lemma click_initial targetTime :
  Timer.click targetTime (Timer.initial targetTime)
  = counting targetTime (targetTime * 1000).
Proof.
  unfold Timer.click, Timer.timerActive. simpl.
  rewrite (bool_decide_eq_false_2 (targetTime * 1000 < targetTime * 1000)) by lia.
  by rewrite andb_false_r.
Qed.

Lemma ticks_count targetTime k :
  10 * Z.of_nat k ≤ targetTime * 1000 →
  Nat.iter k Timer.tick (counting targetTime (targetTime * 1000))
  = counting targetTime (targetTime * 1000 - 10 * Z.of_nat k).
Proof.
  induction k as [|k IH]; intros Hk.
  - simpl. unfold counting. f_equal. lia.
  - rewrite Nat.iter_succ, IH by lia. unfold Timer.tick. simpl.
    rewrite bool_decide_eq_false_2 by lia.
    unfold counting. f_equal. lia.
Qed.

Lemma cleared : ({[ 1%nat ]} ∪ ∅ : gset nat) ∖ {[ 1%nat ]} = ∅.
Proof. rewrite (right_id_L ∅ (∪)). apply difference_diag_L. Qed.
End timer.

(** X15: Start, let [k] runs of the interval pass, with [k] short of the target
    time, and click again: the click stops the timer: no interval is left
    running, the dialog opens, the remaining time is the target time less
    10 ms per run, and the result shown is 'won'. Closing the dialog sets
    the remaining time back to the target time. The target time is a whole
    number of seconds with [targetTime * 1000] at most 2^53. *)
Theorem stop_in_time (targetTime : Z) (k : nat) :
  Timer.safe_target targetTime →
  (0 < Z.of_nat k)%Z → (10 * Z.of_nat k < targetTime * 1000)%Z →
  let st := Nat.iter k Timer.tick (Timer.click targetTime (Timer.initial targetTime)) in
  let stopped := Timer.click targetTime st in
  Timer.remainingTime st = (targetTime * 1000 - 10 * Z.of_nat k)%Z
  ∧ Timer.timerActive targetTime st = true
  ∧ Timer.remainingTime stopped = (targetTime * 1000 - 10 * Z.of_nat k)%Z
  ∧ Timer.running stopped = ∅
  ∧ Timer.modal stopped = true
  ∧ Timer.result_prop stopped = "won"
  ∧ Timer.remainingTime (Timer.handleModalClose targetTime stopped)
    = (targetTime * 1000)%Z
  ∧ Timer.timerActive targetTime (Timer.handleModalClose targetTime stopped) = false.
Proof.
  intros _ Hk0 Hk. cbv zeta.
  rewrite click_initial, ticks_count by lia.
  assert (Timer.timerActive targetTime
            (counting targetTime (targetTime * 1000 - 10 * Z.of_nat k)) = true) as Hact.
  { unfold Timer.timerActive. simpl.
    rewrite !bool_decide_eq_true_2 by lia. done. }
  unfold Timer.click. rewrite Hact.
  split_and!.
  - done.
  - done.
  - done.
  - simpl. apply cleared.
  - done.
  - unfold Timer.result_prop, Timer.timerExpired. simpl.
    by rewrite bool_decide_eq_false_2 by lia.
  - done.
  - unfold Timer.timerActive. simpl.
    rewrite (bool_decide_eq_false_2 (targetTime * 1000 < targetTime * 1000)%Z) by lia.
    by rewrite andb_false_r.
Qed.

Lemma stop_in_time_witness :
  let st := Nat.iter 150 Timer.tick (Timer.click 2 (Timer.initial 2)) in
  let stopped := Timer.click 2 st in
  Timer.remainingTime st = (2 * 1000 - 10 * Z.of_nat 150)%Z
  ∧ Timer.timerActive 2 st = true
  ∧ Timer.remainingTime stopped = (2 * 1000 - 10 * Z.of_nat 150)%Z
  ∧ Timer.running stopped = ∅
  ∧ Timer.modal stopped = true
  ∧ Timer.result_prop stopped = "won"
  ∧ Timer.remainingTime (Timer.handleModalClose 2 stopped) = (2 * 1000)%Z
  ∧ Timer.timerActive 2 (Timer.handleModalClose 2 stopped) = false.
Proof.
  apply (stop_in_time 2 150); [unfold Timer.safe_target; lia|lia|lia].
Defined.

(** X16: Start and let the interval run: after 100 runs per second of target
    time the remaining time is 0 and the challenge counts as expired, but
    the interval still runs and the dialog is closed; the next run clears
    the interval and opens the dialog, and the result shown is 'lost'. The
    target time is a whole number of seconds, not negative, with
    [targetTime * 1000] at most 2^53. *)
Theorem expires_one_run_late (targetTime : Z) :
  Timer.safe_target targetTime →
  let st := Nat.iter (Z.to_nat (100 * targetTime)) Timer.tick
              (Timer.click targetTime (Timer.initial targetTime)) in
  Timer.remainingTime st = 0%Z
  ∧ Timer.timerExpired st = true
  ∧ Timer.timerActive targetTime st = false
  ∧ Timer.running st = {[ 1 ]} ∪ ∅
  ∧ Timer.modal st = false
  ∧ Timer.remainingTime (Timer.tick st) = 0%Z
  ∧ Timer.running (Timer.tick st) = ∅
  ∧ Timer.modal (Timer.tick st) = true
  ∧ Timer.result_prop (Timer.tick st) = "lost".
Proof.
  intros [Ht _]. cbv zeta.
  rewrite click_initial, ticks_count by lia.
  replace (targetTime * 1000 - 10 * Z.of_nat (Z.to_nat (100 * targetTime)))%Z
    with 0%Z by lia.
  split_and!.
  - done.
  - done.
  - reflexivity.
  - done.
  - done.
  - done.
  - simpl. apply cleared.
  - done.
  - done.
Qed.

Lemma expires_one_run_late_witness :
  let st := Nat.iter (Z.to_nat (100 * 2)) Timer.tick (Timer.click 2 (Timer.initial 2)) in
  Timer.remainingTime st = 0%Z
  ∧ Timer.timerExpired st = true
  ∧ Timer.timerActive 2 st = false
  ∧ Timer.running st = {[ 1 ]} ∪ ∅
  ∧ Timer.modal st = false
  ∧ Timer.remainingTime (Timer.tick st) = 0%Z
  ∧ Timer.running (Timer.tick st) = ∅
  ∧ Timer.modal (Timer.tick st) = true
  ∧ Timer.result_prop (Timer.tick st) = "lost".
Proof.
  apply (expires_one_run_late 2). unfold Timer.safe_target. lia.
Defined.

Lemma time_in_range_step (targetTime : Z) (st st' : Timer.state) :
  (0 ≤ targetTime)%Z →
  Timer.step targetTime st st' →
  time_in_range targetTime st → time_in_range targetTime st'.
Proof.
  intros Ht Hstep [Hrange [q Hq]]. destruct Hstep as [st|st id Hid|st].
  - unfold Timer.click, time_in_range.
    destruct (Timer.timerActive targetTime st); simpl; (split; [lia|by exists q]).
  - unfold Timer.tick. case_bool_decide as Hle; unfold time_in_range; simpl.
    + split; [lia|]. exists 0%Z. lia.
    + split; [lia|]. exists (q - 1)%Z. lia.
  - unfold time_in_range. simpl. split; [lia|]. exists (targetTime * 100)%Z. lia.
Qed.

(** X17: Whatever the order of clicks, runs of running intervals and closings
    of the dialog, also with several intervals running at once, the
    remaining time of a challenge with a target time of a whole number of
    seconds, not negative and with [targetTime * 1000] at most 2^53, stays
    a multiple of 10 ms between 0 and the target time, hence a whole number
    within the range in which the code's arithmetic is exact. *)
Theorem remaining_time_in_range (targetTime : Z) (st : Timer.state) :
  Timer.safe_target targetTime →
  rtc (Timer.step targetTime) (Timer.initial targetTime) st →
  (0 ≤ Timer.remainingTime st ≤ targetTime * 1000)%Z
  ∧ (Timer.remainingTime st ≤ 9007199254740992)%Z
  ∧ ∃ q : Z, Timer.remainingTime st = (10 * q)%Z.
Proof.
  intros [Ht Hsafe] Hrtc.
  cut ((0 ≤ Timer.remainingTime st ≤ targetTime * 1000)%Z
       ∧ ∃ q : Z, Timer.remainingTime st = (10 * q)%Z).
  { intros [? ?]. split; [done|]. split; [lia|done]. }
  change (time_in_range targetTime st). revert st Hrtc.
  apply rtc_ind_r.
  - unfold time_in_range. simpl. split; [lia|]. exists (targetTime * 100)%Z. lia.
  - intros st1 st2 _ Hstep IH. by eapply time_in_range_step.
Qed.

Lemma remaining_time_in_range_witness :
  (0 ≤ Timer.remainingTime (Timer.tick (Timer.click 5 (Timer.initial 5))) ≤ 5 * 1000)%Z
  ∧ (Timer.remainingTime (Timer.tick (Timer.click 5 (Timer.initial 5)))
     ≤ 9007199254740992)%Z
  ∧ ∃ q : Z, Timer.remainingTime (Timer.tick (Timer.click 5 (Timer.initial 5))) = (10 * q)%Z.
Proof.
  apply (remaining_time_in_range 5); [unfold Timer.safe_target; lia|].
  eapply rtc_l; [apply Timer.step_click|].
  eapply rtc_l; [apply (Timer.step_tick 5 _ 1%nat)|apply rtc_refl].
  rewrite click_initial. simpl. apply elem_of_union_l, elem_of_singleton. done.
Defined.

(** ** The welcome form *)

(** X18: Type a name and submit: the heading shows the name, or 'unknown entity'
    when nothing was typed, and the input is emptied; so submitting once
    more without typing sets the heading back to 'unknown entity'. *)
Theorem submit_shows_and_clears (text : string) (st : Welcome.state) :
  Welcome.shown_name (Welcome.handleSubmit (Welcome.type text st))
  = (if String.eqb text "" then "unknown entity" else text)
  ∧ Welcome.input (Welcome.handleSubmit (Welcome.type text st)) = ""
  ∧ Welcome.shown_name
      (Welcome.handleSubmit (Welcome.handleSubmit (Welcome.type text st)))
    = "unknown entity".
Proof. split_and!; reflexivity. Qed.

(** ** The results table *)

(** X19: The total interest shown in a row is the total shown in the row above
    plus the interest of the row, added in this order; in the first row it
    is [0] plus the interest of the row. *)
Theorem total_interest_runs {F : Type} (add : F → F → F) (zero : F)
    (results : list (Results.entry F)) (index : nat) (r : Results.entry F) :
  results !! index = Some r →
  Results.totalInterest add zero results index
  = add (match index with
         | 0 => zero
         | S above => Results.totalInterest add zero results above
         end) (Results.interest r).
Proof.
  intros Hr. unfold Results.totalInterest.
  rewrite Nat.add_1_r, (take_S_r _ _ _ Hr), foldl_app. simpl.
  destruct index as [|above]; [done|]. by rewrite Nat.add_1_r.
Qed.

Lemma total_interest_runs_witness :
  Results.totalInterest Nat.add 0
    [ {| Results.year := 1; Results.interest := 5; Results.valueEndOfYear := 105 |};
      {| Results.year := 2; Results.interest := 7; Results.valueEndOfYear := 112 |} ] 1
  = (match 1 with
     | 0 => 0
     | S above =>
         Results.totalInterest Nat.add 0
           [ {| Results.year := 1; Results.interest := 5; Results.valueEndOfYear := 105 |};
             {| Results.year := 2; Results.interest := 7; Results.valueEndOfYear := 112 |} ]
           above
     end) + Results.interest
              {| Results.year := 2; Results.interest := 7; Results.valueEndOfYear := 112 |}.
Proof.
  apply (total_interest_runs Nat.add 0 _ 1). reflexivity.
Defined.
